(** * Drowsiness detection over YOLO pose output: a shallow embedding

    This development embeds [check_drowsiness] and
    [process_pose_detections] of [drowsiness_yolo_pose.py] and proves
    properties of the decoding / classification pipeline.

    Numbers.  The development has two layers.  In the first, Python
    floats and NumPy float32 scalars are read as exact rationals ([Q])
    and Python ints as [Z]; the properties of the filtering, the
    indexing, the flag and the drawing are proved there.  The second,
    [Fp], repeats the classifier and the scaling with the roundings of
    the runtime (binary64 for Python's [int / int], float32 for what
    NumPy 2 computes with a float32 scalar, exceptions of [int] on an
    infinity or a NaN); the claims that depend on the rounding are
    settled there.  [int(f)] is truncation toward zero.

    Exceptions.  Indexing out of range, tuple unpacking of the wrong
    length and division by zero raise; they are threaded through an
    error monad, in the order in which the source evaluates them.

    Drawing.  The cv2 primitives are external; [result_img] is modelled
    as the list of drawing calls issued on the copy of the input
    image. *)

From Stdlib Require Import List ZArith QArith Qabs Qround Qpower Lia Lqa Bool.
From Stdlib Require Import Permutation.
From Stdlib Require String.
Import String.StringSyntax.
Import ListNotations.
Delimit Scope string_scope with string.

Set Implicit Arguments.

(** ** Python runtime fragments *)

Module Py.

Inductive exn : Type :=
| IndexError
| ValueError
| ZeroDivisionError
| OverflowError.

Inductive result (A : Type) : Type :=
| Ok (a : A)
| Raise (e : exn).

Arguments Ok {A} a.
Arguments Raise {A} e.

Definition bind {A B : Type} (c : result A) (k : A -> result B) : result B :=
  match c with
  | Ok a => k a
  | Raise e => Raise e
  end.

(** [l[i]] for a non-negative index. *)
Definition getitem {A : Type} (l : list A) (i : nat) : result A :=
  match nth_error l i with
  | Some a => Ok a
  | None => Raise IndexError
  end.

(** [l[lo:hi]] for non-negative bounds: never raises, shortens at the end. *)
Definition slice {A : Type} (l : list A) (lo hi : nat) : list A :=
  firstn (hi - lo) (skipn lo l).

(** [a, b, c = l] *)
Definition unpack3 {A : Type} (l : list A) : result (A * A * A) :=
  match l with
  | [a; b; c] => Ok (a, b, c)
  | _ => Raise ValueError
  end.

(** [a, b, c, d = l] *)
Definition unpack4 {A : Type} (l : list A) : result (A * A * A * A) :=
  match l with
  | [a; b; c; d] => Ok (a, b, c, d)
  | _ => Raise ValueError
  end.

(** [int(f)]: truncation toward zero. *)
Definition int_ (q : Q) : Z := Z.quot (Qnum q) (Zpos (Qden q)).

(** [a / b] on ints (true division). *)
Definition truediv (a b : Z) : result Q :=
  if Z.eqb b 0 then Raise ZeroDivisionError
  else Ok (inject_Z a / inject_Z b)%Q.

(** [a > b] on numbers. *)
Definition gt (a b : Q) : bool := negb (Qle_bool a b).

(** [a >= b] on numbers. *)
Definition ge (a b : Q) : bool := Qle_bool b a.

(** [sum(l)] on ints: starts from 0 and adds from the left. *)
Definition sum (l : list Z) : Z := fold_left Z.add l 0%Z.

(** [len(l)] *)
Definition len {A : Type} (l : list A) : Z := Z.of_nat (length l).

(** [enumerate(l)] *)
Definition enumerate {A : Type} (l : list A) : list (nat * A) :=
  combine (seq 0 (length l)) l.

(** [range(n)] *)
Definition range (n : nat) : list nat := seq 0 n.

End Py.

Import Py.

Notation "x <- c ;; k" := (bind c (fun x => k))
  (at level 61, c at next level, right associativity).
Notation "' pat <- c ;; k" := (bind c (fun x => match x with pat => k end))
  (at level 61, pat pattern, c at next level, right associativity).

(** ** check_drowsiness *)

(** A keypoint is the tuple [(x, y, conf)]; the program builds them with
    int coordinates (the results of [int(...)]) and a float confidence. *)
Definition keypoint : Type := (Z * Z * Q)%type.

Definition head_indices : list nat := [0; 1; 2; 3; 4]%nat.
Definition shoulder_indices : list nat := [5; 6]%nat.

(** The collecting loop

      for idx in indices:
          _, y, conf = keypoints[idx]
          if conf > kpt_conf_threshold:
              y_coords.append(y)

    with [y_coords] as the accumulator. *)
Fixpoint collect_y_coords (keypoints : list keypoint) (indices : list nat)
    (kpt_conf_threshold : Q) (y_coords : list Z) : result (list Z) :=
  match indices with
  | [] => Ok y_coords
  | idx :: rest =>
      '(_, y, conf) <- getitem keypoints idx ;;
      collect_y_coords keypoints rest kpt_conf_threshold
        (if gt conf kpt_conf_threshold then y_coords ++ [y] else y_coords)
  end.

Definition check_drowsiness (keypoints : list keypoint)
    (kpt_conf_threshold : Q) : result bool :=
  head_y_coords <-
    collect_y_coords keypoints head_indices kpt_conf_threshold [] ;;
  shoulder_y_coords <-
    collect_y_coords keypoints shoulder_indices kpt_conf_threshold [] ;;
  if (len head_y_coords =? 0)%Z || (len shoulder_y_coords =? 0)%Z
  then Ok false
  else
    avg_head_y <- truediv (sum head_y_coords) (len head_y_coords) ;;
    avg_shoulder_y <- truediv (sum shoulder_y_coords) (len shoulder_y_coords) ;;
    Ok (ge avg_head_y avg_shoulder_y).

(** ** Constant tables *)

Definition KEYPOINT_NAMES : list String.string :=
  [ "nose"; "left_eye"; "right_eye"; "left_ear"; "right_ear";
    "left_shoulder"; "right_shoulder"; "left_elbow"; "right_elbow";
    "left_wrist"; "right_wrist"; "left_hip"; "right_hip";
    "left_knee"; "right_knee"; "left_ankle"; "right_ankle" ]%string.

Definition SKELETON_CONNECTIONS : list (nat * nat) :=
  [ (0, 1); (0, 2);
    (1, 3); (2, 4);
    (5, 7); (7, 9);
    (6, 8); (8, 10);
    (5, 6); (5, 11); (6, 12);
    (11, 13); (13, 15);
    (12, 14); (14, 16) ]%nat.

Definition color : Type := (Z * Z * Z)%type.

Definition KEYPOINT_COLORS : list color :=
  [ (255, 0, 0); (255, 85, 0); (255, 170, 0); (255, 255, 0); (170, 255, 0);
    (85, 255, 0); (0, 255, 0); (0, 255, 85); (0, 255, 170); (0, 255, 255);
    (0, 170, 255); (0, 85, 255); (0, 0, 255); (85, 0, 255); (170, 0, 255);
    (255, 0, 255); (255, 0, 170) ]%Z.

Definition LIMB_COLORS : list color :=
  [ (255, 128, 0); (255, 128, 0); (255, 200, 0); (255, 200, 0);
    (0, 255, 0); (0, 255, 150); (0, 255, 0); (0, 255, 150);
    (0, 150, 255); (0, 100, 255); (0, 100, 255);
    (130, 0, 255); (230, 0, 255); (130, 0, 255); (230, 0, 255) ]%Z.

(** ** The image as a log of drawing calls *)

Inductive text : Type :=
| PersonLabel (score : Q) (alert_text : String.string)
    (* f"Person: {score:.2f} - {alert_text}" *)
| Plain (s : String.string).

Inductive draw_call : Type :=
| BlendedBox (pt1 pt2 : Z * Z) (box_color : color) (alpha : Q)
    (* outline and filled rectangle on a copy, then addWeighted *)
| PutText (t : text) (org : Z * Z) (font_scale : Q) (c : color) (thickness : Z)
| Line (start_pt end_pt : Z * Z) (c : color) (thickness : Z)
| Circle (center : Z * Z) (radius : Z) (c : color) (thickness : Z).

Definition image : Type := list draw_call.

(** ** process_pose_detections *)

(** One row of the raw tensor. *)
Definition detection : Type := list Q.

(** A raw output array, indexed [batch][row][column]. *)
Definition tensor : Type := list (list detection).

(** Lines 169-174: the confidence filter, [valid_detections] as
    accumulator. *)
Fixpoint filter_loop (rows : list detection) (conf_threshold : Q)
    (valid_detections : list detection) : result (list detection) :=
  match rows with
  | [] => Ok valid_detections
  | detection :: rest =>
      score <- getitem detection 4 ;;
      filter_loop rest conf_threshold
        (if gt score conf_threshold
         then valid_detections ++ [detection] else valid_detections)
  end.

(** Lines 191-194. *)
Definition scale_box (x1 y1 x2 y2 scale_x scale_y : Q) : Z * Z * Z * Z :=
  (int_ (x1 * scale_x), int_ (y1 * scale_y),
   int_ (x2 * scale_x), int_ (y2 * scale_y)).

(** Lines 197-200. *)
Definition clamp_box (x1 y1 x2 y2 original_width original_height : Z)
  : Z * Z * Z * Z :=
  (Z.max 0 x1, Z.max 0 y1,
   Z.min (original_width - 1) x2, Z.min (original_height - 1) y2).

(** Lines 203-214: the keypoint loop over [range(17)], [keypoints] as
    accumulator. *)
Fixpoint keypoints_loop (detection : detection) (scale_x scale_y : Q)
    (kpt_idxs : list nat) (keypoints : list keypoint)
  : result (list keypoint) :=
  match kpt_idxs with
  | [] => Ok keypoints
  | kpt_idx :: rest =>
      let base_idx := (6 + kpt_idx * 3)%nat in
      '(kx, ky, kp_conf) <-
        unpack3 (slice detection base_idx (base_idx + 3)) ;;
      let kx_scaled := int_ (kx * scale_x) in
      let ky_scaled := int_ (ky * scale_y) in
      keypoints_loop detection scale_x scale_y rest
        (keypoints ++ [(kx_scaled, ky_scaled, kp_conf)])
  end.

(** Lines 251-262: the skeleton lines. *)
Fixpoint limbs_loop (keypoints : list keypoint) (kpt_conf_threshold : Q)
    (limbs : list (nat * (nat * nat))) (result_img : image) : result image :=
  match limbs with
  | [] => Ok result_img
  | (limb_idx, (start_idx, end_idx)) :: rest =>
      start_keypoint <- getitem keypoints start_idx ;;
      end_keypoint <- getitem keypoints end_idx ;;
      if gt (snd start_keypoint) kpt_conf_threshold
         && gt (snd end_keypoint) kpt_conf_threshold
      then
        c <- getitem LIMB_COLORS limb_idx ;;
        let start_pt := fst start_keypoint in
        let end_pt := fst end_keypoint in
        limbs_loop keypoints kpt_conf_threshold rest
          (result_img ++ [Line start_pt end_pt c 2])
      else limbs_loop keypoints kpt_conf_threshold rest result_img
  end.

(** Lines 265-283: the keypoint circles and names. *)
Fixpoint circles_loop (kpt_conf_threshold : Q)
    (kpts : list (nat * keypoint)) (result_img : image) : result image :=
  match kpts with
  | [] => Ok result_img
  | (kpt_idx, (kx_scaled, ky_scaled, kp_conf)) :: rest =>
      if gt kp_conf kpt_conf_threshold
      then
        c <- getitem KEYPOINT_COLORS kpt_idx ;;
        name <- getitem KEYPOINT_NAMES kpt_idx ;;
        circles_loop kpt_conf_threshold rest
          (result_img ++
             [Circle (kx_scaled, ky_scaled) 4 c (-1);
              PutText (Plain name) (kx_scaled + 5, ky_scaled)%Z (4 # 10) c 1])
      else circles_loop kpt_conf_threshold rest result_img
  end.

(** Lines 184-283: one iteration of the drawing loop.  The loop state is
    the pair [(result_img, drowsiness_detected)]. *)
Definition detection_body (original_width original_height : Z)
    (scale_x scale_y kpt_conf_threshold : Q)
    (st : image * bool) (detection : detection) : result (image * bool) :=
  let '(result_img, drowsiness_detected) := st in
  '(x1, y1, x2, y2) <- unpack4 (slice detection 0 4) ;;
  score <- getitem detection 4 ;;
  class_id_raw <- getitem detection 5 ;;
  let class_id := int_ class_id_raw in
  let '(x1, y1, x2, y2) := scale_box x1 y1 x2 y2 scale_x scale_y in
  let '(x1, y1, x2, y2) :=
    clamp_box x1 y1 x2 y2 original_width original_height in
  keypoints <- keypoints_loop detection scale_x scale_y (range 17) [] ;;
  is_drowsy <- check_drowsiness keypoints kpt_conf_threshold ;;
  let drowsiness_detected := drowsiness_detected || is_drowsy in
  let '(box_color, alert_text) :=
    if is_drowsy
    then ((0, 0, 255)%Z, "Drowsiness Detected"%string)
    else ((0, 255, 0)%Z, "Normal"%string) in
  let result_img :=
    result_img ++
      [BlendedBox (x1, y1) (x2, y2) box_color (3 # 10);
       PutText (PersonLabel score alert_text) (x1, y1 - 10)%Z
         (5 # 10) box_color 2] in
  result_img <-
    limbs_loop keypoints kpt_conf_threshold
      (enumerate SKELETON_CONNECTIONS) result_img ;;
  result_img <-
    circles_loop kpt_conf_threshold (enumerate keypoints) result_img ;;
  Ok (result_img, drowsiness_detected).

(** [for i, detection in enumerate(valid_detections): ...] *)
Fixpoint detections_loop (original_width original_height : Z)
    (scale_x scale_y kpt_conf_threshold : Q)
    (valid_detections : list detection) (st : image * bool)
  : result (image * bool) :=
  match valid_detections with
  | [] => Ok st
  | detection :: rest =>
      st' <- detection_body original_width original_height
               scale_x scale_y kpt_conf_threshold st detection ;;
      detections_loop original_width original_height
        scale_x scale_y kpt_conf_threshold rest st'
  end.

(** [original_size] is [(original_width, original_height, original_img)];
    the image itself is the empty drawing log.  The function returns
    [(result_img, valid_detections, drowsiness_detected)]. *)
Definition process_pose_detections (outputs : list tensor)
    (original_size : Z * Z) (input_size : Z)
    (conf_threshold kpt_conf_threshold : Q)
  : result (image * list detection * bool) :=
  let '(original_width, original_height) := original_size in
  detections <- getitem outputs 0 ;;
  rows <- getitem detections 0 ;;
  valid_detections <- filter_loop rows conf_threshold [] ;;
  let result_img : image := [] in
  let drowsiness_detected := false in
  scale_x <- truediv original_width input_size ;;
  scale_y <- truediv original_height input_size ;;
  '(result_img, drowsiness_detected) <-
    detections_loop original_width original_height scale_x scale_y
      kpt_conf_threshold valid_detections
      (result_img, drowsiness_detected) ;;
  let result_img :=
    if drowsiness_detected
    then result_img ++
           [PutText (Plain "WARNING: Drowsiness Detected!"%string)
              (20, 30)%Z (8 # 10) (0, 0, 255)%Z 2]
    else result_img in
  Ok (result_img, valid_detections, drowsiness_detected).

(** ** main, from the call of [process_pose_detections] on *)




(** ** Floating point

    The layer above reads every number as an exact rational.  [Fp]
    repeats the arithmetic of the source with the roundings of the
    runtime: Python's [int / int] is the binary64 number nearest to the
    exact quotient; under NumPy 2 a Python float that meets a float32
    scalar is first rounded to float32, and the comparison or product is
    then a float32 operation; [int(f)] raises on an infinity or a
    NaN. *)

Module Fp.

(** A floating-point value: finite (an exact rational), an infinity with
    its sign, or not a number. *)
Inductive fval : Type :=
| Fin (q : Q)
| Inf (negative : bool)
| NaN.

(** 2 ^ e for an integer exponent of either sign. *)
Definition pow2 (e : Z) : Q := Qpower 2 e.

(** floor(log2 q) for q > 0. *)
Definition ilog2 (q : Q) : Z :=
  let l := (Z.log2 (Qnum q) - Z.log2 (Z.pos (Qden q)))%Z in
  if Qle_bool (pow2 l) q then l else (l - 1)%Z.

(** The nearest integer, ties to the even one. *)
Definition rne (q : Q) : Z :=
  let f := Qfloor q in
  match Qcompare (q - inject_Z f) (1 # 2) with
  | Lt => f
  | Gt => (f + 1)%Z
  | Eq => if Z.even f then f else (f + 1)%Z
  end.

(** The exponent of the last bit of the significand of q > 0, in the
    format with [prec] bits and least exponent [emin]. *)
Definition exponent (prec emin : Z) (q : Q) : Z :=
  Z.max (ilog2 q - (prec - 1)) emin.

(** The multiple of 2 ^ exponent nearest to q > 0, ties to even. *)
Definition nearest (prec emin : Z) (q : Q) : Q :=
  let e := exponent prec emin q in
  (inject_Z (rne (q / pow2 e)) * pow2 e)%Q.

(** IEEE 754 round-to-nearest-even into the format with [prec] bits of
    significand, least exponent [emin] (of the last bit, subnormals
    included) and overflow threshold 2 ^ [emax]: the magnitude is
    rounded and the sign kept. *)
Definition round_float (prec emin emax : Z) (q : Q) : fval :=
  if Qeq_bool q 0 then Fin 0
  else
    let r := nearest prec emin (Qabs q) in
    if Qle_bool (pow2 emax) r then Inf (Qnum q <? 0)%Z
    else Fin (Qred (if (Qnum q <? 0)%Z then - r else r)).

Definition binary64 : Q -> fval := round_float 53 (-1074) 1024.
Definition float32 : Q -> fval := round_float 24 (-149) 128.

(** [a / b] on ints: the binary64 number nearest to the quotient. *)
Definition truediv (a b : Z) : result Q :=
  if Z.eqb b 0 then Raise ZeroDivisionError
  else
    match binary64 (inject_Z a / inject_Z b) with
    | Fin f => Ok f
    | _ => Raise OverflowError
    end.

(** [a > b] for a float32 scalar [a] and a Python float [b]. *)
Definition gt (a b : Q) : bool :=
  match float32 b with
  | Fin t => negb (Qle_bool a t)
  | Inf negative => negative
  | NaN => false
  end.

(** [a >= b] on Python floats. *)
Definition ge (a b : Q) : bool := Qle_bool b a.

(** [x * s] for a float32 scalar [x] and a Python float [s]. *)
Definition mul (x s : Q) : fval :=
  match float32 s with
  | Fin t => float32 (x * t)
  | Inf negative =>
      if Qeq_bool x 0 then NaN
      else Inf (xorb negative (Qnum x <? 0)%Z)
  | NaN => NaN
  end.

(** [int(f)] *)
Definition int (f : fval) : result Z :=
  match f with
  | Fin q => Ok (int_ q)
  | Inf _ => Raise OverflowError
  | NaN => Raise ValueError
  end.

(** Lines 131-143. *)
Fixpoint collect_y_coords (keypoints : list keypoint) (indices : list nat)
    (kpt_conf_threshold : Q) (y_coords : list Z) : result (list Z) :=
  match indices with
  | [] => Ok y_coords
  | idx :: rest =>
      '(_, y, conf) <- getitem keypoints idx ;;
      collect_y_coords keypoints rest kpt_conf_threshold
        (if gt conf kpt_conf_threshold then y_coords ++ [y] else y_coords)
  end.

(** Lines 114-154. *)
Definition check_drowsiness (keypoints : list keypoint)
    (kpt_conf_threshold : Q) : result bool :=
  head_y_coords <-
    collect_y_coords keypoints head_indices kpt_conf_threshold [] ;;
  shoulder_y_coords <-
    collect_y_coords keypoints shoulder_indices kpt_conf_threshold [] ;;
  if (len head_y_coords =? 0)%Z || (len shoulder_y_coords =? 0)%Z
  then Ok false
  else
    avg_head_y <- truediv (sum head_y_coords) (len head_y_coords) ;;
    avg_shoulder_y <- truediv (sum shoulder_y_coords) (len shoulder_y_coords) ;;
    Ok (ge avg_head_y avg_shoulder_y).

(** Lines 191-194. *)
Definition scale_box (x1 y1 x2 y2 scale_x scale_y : Q)
  : result (Z * Z * Z * Z) :=
  x1' <- int (mul x1 scale_x) ;;
  y1' <- int (mul y1 scale_y) ;;
  x2' <- int (mul x2 scale_x) ;;
  y2' <- int (mul y2 scale_y) ;;
  Ok (x1', y1', x2', y2').

(** Lines 203-214. *)
Fixpoint keypoints_loop (detection : detection) (scale_x scale_y : Q)
    (kpt_idxs : list nat) (keypoints : list keypoint)
  : result (list keypoint) :=
  match kpt_idxs with
  | [] => Ok keypoints
  | kpt_idx :: rest =>
      let base_idx := (6 + kpt_idx * 3)%nat in
      '(kx, ky, kp_conf) <-
        unpack3 (slice detection base_idx (base_idx + 3)) ;;
      kx_scaled <- int (mul kx scale_x) ;;
      ky_scaled <- int (mul ky scale_y) ;;
      keypoints_loop detection scale_x scale_y rest
        (keypoints ++ [(kx_scaled, ky_scaled, kp_conf)])
  end.

End Fp.

(** ** Vocabulary of the statements *)

(** What one iteration of the collecting loop contributes. *)
Definition picked (kpt_conf_threshold : Q) (k : option keypoint) : list Z :=
  match k with
  | Some (_, y, conf) => if gt conf kpt_conf_threshold then [y] else []
  | None => []
  end.

(** The specification's reading of the two groups: among the [n]
    keypoints starting at index [lo], those whose confidence is strictly
    above the threshold, and of these the y-coordinate. *)
Definition confident (thr : Q) (k : keypoint) : bool :=
  if Qlt_le_dec thr (snd k) then true else false.

Definition confident_ys (keypoints : list keypoint) (lo n : nat) (thr : Q)
  : list Z :=
  map (fun k => snd (fst k))
    (filter (confident thr) (slice keypoints lo (lo + n))).

(** Arithmetic mean of a non-empty list of ints, as a rational. *)
Definition mean (l : list Z) : Q :=
  (inject_Z (fold_right Z.add 0%Z l) / inject_Z (Z.of_nat (length l)))%Q.

(** The box confidence of a row: the value at index 4. *)
Definition score_of (d : detection) : Q := nth 4 d 0%Q.

(** A row passes when its box confidence is strictly above the
    threshold. *)
Definition passes (conf_threshold : Q) (d : detection) : bool :=
  if Qlt_le_dec conf_threshold (score_of d) then true else false.




(** [z] is an integer nearest to [q]. *)
Definition nearest_integer (q : Q) (z : Z) : Prop :=
  (Qabs (q - inject_Z z) <= 1 # 2)%Q.

(** [z] is [q] with its fractional part dropped (rounding toward
    zero). *)
Definition truncation (q : Q) (z : Z) : Prop :=
  (Qabs (inject_Z z) <= Qabs q)%Q /\
  (Qabs q < Qabs (inject_Z z) + 1)%Q /\
  (0 <= inject_Z z * q)%Q.

(** A point lies in the image. *)
Definition in_image (original_width original_height : Z) (pt : Z * Z) : Prop :=
  (0 <= fst pt <= original_width - 1 /\ 0 <= snd pt <= original_height - 1)%Z.

(** ** Concrete inputs *)

(** Seventeen keypoints whose head group lies at [head_y], whose
    shoulders lie at y = 280 and whose other joints lie further down, the
    head group with confidence [head_conf], the others with 0.9. *)
Definition person (head_y : Z) (head_conf : Q) : list keypoint :=
  repeat (100, head_y, head_conf)%Z 5 ++
  [(90, 280, 9 # 10); (110, 280, 9 # 10)]%Z ++
  repeat (100, 400, 9 # 10)%Z 10.

(** The three columns of a keypoint in a raw row. *)
Definition columns (k : keypoint) : list Q :=
  let '(x, y, conf) := k in [inject_Z x; inject_Z y; conf].

(** A raw row: box corners, score, class 0, then the keypoint columns. *)
Definition raw_row (x1 y1 x2 y2 : Z) (score : Q) (keypoints : list keypoint)
  : detection :=
  [inject_Z x1; inject_Z y1; inject_Z x2; inject_Z y2; score; 0%Q] ++
  flat_map columns keypoints.

(** A person whose box and elbows-to-ankles leave the 640 x 640 model
    space. *)
Definition row_outside : detection :=
  raw_row (-10) 5 700 300 (9 # 10)
    (repeat (100, 300, 9 # 10)%Z 5 ++
     [(90, 280, 9 # 10); (110, 280, 9 # 10)]%Z ++
     repeat (-5, 700, 9 # 10)%Z 10).

(** A drowsy and an upright person, and a row below the default box
    threshold. *)
Definition row_drowsy : detection :=
  raw_row 50 200 150 420 (9 # 10) (person 300 (9 # 10)).
Definition row_faint : detection :=
  raw_row 500 200 600 420 (1 # 10) (person 300 (9 # 10)).


(** ** Vocabulary of the further properties *)

(** The head-against-shoulders rule without division: both groups are
    non-empty and sum(shoulders) * len(head) <= sum(head) * len(shoulders). *)
Definition cross_rule (head shoulder : list Z) : bool :=
  negb (length head =? 0)%nat && negb (length shoulder =? 0)%nat &&
  (fold_right Z.add 0 shoulder * Z.of_nat (length head) <=?
   fold_right Z.add 0 head * Z.of_nat (length shoulder))%Z.

(** Replacing the x-coordinate of a keypoint. *)
Definition move_x (f : Z -> Z) (k : keypoint) : keypoint :=
  let '(x, y, conf) := k in (f x, y, conf).







(** ** prepare_image, after the resize *)

(** An image as cv2 returns it: rows of pixels of three uint8 channels,
    indexed [row][column][channel]. *)
Definition pixels : Type := list (list (list Z)).

(** [a.transpose(2, 0, 1)] on an array of three channels: the result is
    indexed [channel][row][column]. *)
Definition transpose_2_0_1 (a : pixels) : list (list (list Z)) :=
  map (fun c => map (map (fun px => nth c px 0%Z)) a) (range 3).

(** Lines 96-97: transpose, [astype(np.float32) / 255.0] (a float32
    division: the quotient is rounded to float32), then
    [np.expand_dims(..., axis=0)]. *)
Definition input_data_of (img_resized : pixels)
  : list (list (list (list Fp.fval))) :=
  [map (map (map (fun v => Fp.float32 (inject_Z v / 255))))
     (transpose_2_0_1 img_resized)].

(** An array of shape [height, width, 3] with entries from 0 to 255. *)
Definition uint8_image (height width : nat) (a : pixels) : Prop :=
  length a = height /\
  Forall (fun row =>
            length row = width /\
            Forall (fun px => length px = 3%nat /\
                              Forall (fun v => (0 <= v <= 255)%Z) px) row) a.



(** ** Vocabulary of the floating-point statements *)

(** What one iteration of the collecting loop of [Fp] contributes. *)
Definition picked_float32 (kpt_conf_threshold : Q) (k : option keypoint)
  : list Z :=
  match k with
  | Some (_, y, conf) => if Fp.gt conf kpt_conf_threshold then [y] else []
  | None => []
  end.

(** The confidence of [k] is strictly above the threshold rounded to
    float32. *)
Definition above_float32 (thr : Q) (k : keypoint) : bool :=
  match Fp.float32 thr with
  | Fp.Fin t => if Qlt_le_dec t (snd k) then true else false
  | Fp.Inf negative => negative
  | Fp.NaN => false
  end.

(** Among the [n] keypoints starting at index [lo], the y-coordinates of
    those above the float32 threshold. *)
Definition above_float32_ys (keypoints : list keypoint) (lo n : nat) (thr : Q)
  : list Z :=
  map (fun k => snd (fst k))
    (filter (above_float32 thr) (slice keypoints lo (lo + n))).

(** The Python float 0.2 and the float32 nearest to it. *)
Definition python_0_2 : Q := 3602879701896397 # 18014398509481984.
Definition float32_0_2 : Q := 13421773 # 67108864.

(** A person far down an enormous image: the head at y = 2^53, the
    shoulders one pixel lower, at 2^53 + 1; all confidences 0.5. *)
Definition person_far : list keypoint :=
  repeat (100, 2 ^ 53, 1 # 2)%Z 5 ++
  repeat (100, 2 ^ 53 + 1, 1 # 2)%Z 2 ++
  repeat (100, 2 ^ 53 + 400, 1 # 2)%Z 10.

(** A drowsy person whose head confidences are the float32 0.2. *)
Definition person_at_threshold : list keypoint :=
  repeat (100, 300, float32_0_2)%Z 5 ++
  repeat (100, 280, 1 # 2)%Z 2 ++
  repeat (100, 400, 1 # 2)%Z 10.

(** The rational of a finite floating-point value (0 for the others). *)
Definition finite_part (f : Fp.fval) : Q :=
  match f with
  | Fp.Fin q => q
  | _ => 0%Q
  end.

(** The keypoint that the loop of [Fp] builds for index [kpt_idx] when
    its two products are finite. *)
Definition float32_scaled_keypoint (d : detection) (scale_x scale_y : Q)
    (kpt_idx : nat) : keypoint :=
  (int_ (finite_part (Fp.mul (nth (6 + kpt_idx * 3) d 0%Q) scale_x)),
   int_ (finite_part (Fp.mul (nth (6 + kpt_idx * 3 + 1) d 0%Q) scale_y)),
   nth (6 + kpt_idx * 3 + 2) d 0%Q).

(** The products of the keypoint at [kpt_idx] are finite. *)
Definition finite_products (d : detection) (scale_x scale_y : Q)
    (kpt_idx : nat) : Prop :=
  exists px py,
    Fp.mul (nth (6 + kpt_idx * 3) d 0%Q) scale_x = Fp.Fin px /\
    Fp.mul (nth (6 + kpt_idx * 3 + 1) d 0%Q) scale_y = Fp.Fin py.

(** The Python float 672 / 640. *)
Definition python_1_05 : Q := 4728779608739021 # 4503599627370496.

(** Moving a keypoint down by [dy] pixels, and stretching its height by
    the factor [c]. *)
Definition shift_y (dy : Z) (k : keypoint) : keypoint :=
  let '(x, y, conf) := k in (x, (y + dy)%Z, conf).

Definition stretch_y (c : Z) (k : keypoint) : keypoint :=
  let '(x, y, conf) := k in (x, (y * c)%Z, conf).

(** Every y-coordinate of the list is at most [B] in magnitude. *)
Definition heights_within (B : Z) (keypoints : list keypoint) : Prop :=
  Forall (fun k => (Z.abs (snd (fst k)) <= B)%Z) keypoints.

(** * Properties *)

(** Membership in an explicit list. *)
Ltac in_list := simpl; repeat (first [left; reflexivity | right]).

(** ** Runtime lemmas *)

Lemma gt_true_iff (a b : Q) : gt a b = true <-> (b < a)%Q.
Proof.
  unfold gt. rewrite negb_true_iff. split; intro H.
  - apply Qnot_le_lt. intro Hle. apply Qle_bool_iff in Hle. congruence.
  - destruct (Qle_bool a b) eqn:E; [|reflexivity].
    apply Qle_bool_iff in E. exfalso. exact (Qlt_not_le _ _ H E).
Qed.

Lemma gt_false_iff (a b : Q) : gt a b = false <-> (a <= b)%Q.
Proof.
  unfold gt. rewrite negb_false_iff. apply Qle_bool_iff.
Qed.


Lemma getitem_lt {A : Type} (l : list A) (i : nat) :
  (i < length l)%nat -> exists a, getitem l i = Ok a /\ nth_error l i = Some a.
Proof.
  intro H. unfold getitem.
  destruct (nth_error l i) as [a|] eqn:E.
  - exists a. split; reflexivity.
  - apply nth_error_None in E. lia.
Qed.

Lemma skipn_cons_nth {A : Type} (l : list A) :
  forall lo, (lo < length l)%nat ->
    exists a, nth_error l lo = Some a /\ skipn lo l = a :: skipn (S lo) l.
Proof.
  induction l as [|x l IH]; intros lo Hlo; simpl in Hlo.
  - lia.
  - destruct lo as [|lo].
    + exists x. split; reflexivity.
    + destruct (IH lo) as [a [Ha Hs]]; [lia|].
      exists a. split; [exact Ha|exact Hs].
Qed.

(** Reading the indices [lo, lo+1, ..., lo+n-1] one by one is reading the
    slice [l[lo:lo+n]]. *)
Lemma nth_error_seq_slice {A : Type} (l : list A) :
  forall n lo, (lo + n <= length l)%nat ->
    map (nth_error l) (seq lo n) = map Some (slice l lo (lo + n)).
Proof.
  unfold slice.
  induction n as [|n IH]; intros lo H.
  - replace (lo + 0 - lo)%nat with 0%nat by lia. reflexivity.
  - replace (lo + S n - lo)%nat with (S n) by lia.
    destruct (@skipn_cons_nth A l lo) as [a [Ha Hs]]; [lia|].
    rewrite Hs. simpl. rewrite Ha. f_equal.
    specialize (IH (S lo)).
    replace (S lo + n - S lo)%nat with n in IH by lia.
    apply IH. lia.
Qed.

Lemma sum_fold_right (l : list Z) : sum l = fold_right Z.add 0%Z l.
Proof.
  unfold sum. apply fold_symmetric; intros; lia.
Qed.

Lemma len_zero_iff {A : Type} (l : list A) : (len l =? 0)%Z = true <-> l = [].
Proof.
  unfold len. rewrite Z.eqb_eq. destruct l; simpl; split; intro H;
    try reflexivity; try discriminate; lia.
Qed.

(** ** The classifier *)

Section Classifier.

Variable keypoints : list keypoint.
Variable kpt_conf_threshold : Q.

Lemma collect_y_coords_ok (indices : list nat) :
  forall y_coords,
    Forall (fun idx => (idx < length keypoints)%nat) indices ->
    collect_y_coords keypoints indices kpt_conf_threshold y_coords =
    Ok (y_coords ++
        flat_map (fun idx => picked kpt_conf_threshold (nth_error keypoints idx))
          indices).
Proof.
  induction indices as [|idx rest IH]; intros acc Hall; simpl.
  - now rewrite app_nil_r.
  - inversion Hall as [|? ? Hidx Hrest]; subst.
    destruct (getitem_lt keypoints Hidx) as [[[x y] conf] [Hg Hn]].
    rewrite Hg, Hn. simpl.
    rewrite IH by assumption.
    destruct (gt conf kpt_conf_threshold); simpl.
    + now rewrite <- app_assoc.
    + reflexivity.
Qed.


End Classifier.

Lemma confident_gt (thr : Q) (k : keypoint) : confident thr k = gt (snd k) thr.
Proof.
  unfold confident. destruct (Qlt_le_dec thr (snd k)) as [H|H].
  - symmetry. now apply gt_true_iff.
  - symmetry. now apply gt_false_iff.
Qed.

Lemma picked_slice (thr : Q) (l : list keypoint) :
  flat_map (fun k => picked thr (Some k)) l =
  map (fun k => snd (fst k)) (filter (confident thr) l).
Proof.
  induction l as [|[[x y] conf] l IH].
  - reflexivity.
  - cbn [flat_map filter]. rewrite confident_gt, IH.
    cbn [snd picked]. destruct (gt conf thr); reflexivity.
Qed.

Lemma picked_seq (keypoints : list keypoint) (thr : Q) (lo n : nat) :
  (lo + n <= length keypoints)%nat ->
  flat_map (fun idx => picked thr (nth_error keypoints idx)) (seq lo n) =
  confident_ys keypoints lo n thr.
Proof.
  intro H. unfold confident_ys.
  rewrite <- picked_slice.
  rewrite !flat_map_concat_map.
  rewrite <- (map_map (nth_error keypoints) (picked thr)).
  rewrite nth_error_seq_slice by assumption.
  now rewrite map_map.
Qed.

(** With 17 keypoints the classifier returns, and its answer is given by
    the two groups of the specification. *)
Lemma check_drowsiness_17 (keypoints : list keypoint) (thr : Q) :
  length keypoints = 17%nat ->
  check_drowsiness keypoints thr =
  let head := confident_ys keypoints 0 5 thr in
  let shoulder := confident_ys keypoints 5 2 thr in
  match head, shoulder with
  | [], _ | _, [] => Ok false
  | _, _ => Ok (Qle_bool (mean shoulder) (mean head))
  end.
Proof.
  intro Hlen.
  assert (Hhead : collect_y_coords keypoints head_indices thr [] =
                  Ok (confident_ys keypoints 0 5 thr)).
  { rewrite collect_y_coords_ok.
    - change head_indices with (seq 0 5). rewrite picked_seq by lia.
      reflexivity.
    - unfold head_indices. repeat constructor; lia. }
  assert (Hshoulder : collect_y_coords keypoints shoulder_indices thr [] =
                      Ok (confident_ys keypoints 5 2 thr)).
  { rewrite collect_y_coords_ok.
    - change shoulder_indices with (seq 5 2). rewrite picked_seq by lia.
      reflexivity.
    - unfold shoulder_indices. repeat constructor; lia. }
  unfold check_drowsiness. rewrite Hhead. cbn [bind].
  rewrite Hshoulder. cbn [bind]. cbv zeta.
  destruct (confident_ys keypoints 0 5 thr) as [|h hs] eqn:Eh.
  - reflexivity.
  - destruct (confident_ys keypoints 5 2 thr) as [|s ss] eqn:Es.
    + reflexivity.
    + assert (Hh : (len (h :: hs) =? 0)%Z = false).
      { destruct (len (h :: hs) =? 0)%Z eqn:E; [|reflexivity].
        apply len_zero_iff in E. discriminate. }
      assert (Hs : (len (s :: ss) =? 0)%Z = false).
      { destruct (len (s :: ss) =? 0)%Z eqn:E; [|reflexivity].
        apply len_zero_iff in E. discriminate. }
      rewrite Hh, Hs. simpl orb. cbv iota.
      unfold truediv. rewrite Hh, Hs. simpl bind.
      unfold ge, mean, len. rewrite !sum_fold_right. reflexivity.
Qed.

(** ** The classifier and the pipeline on the concrete inputs *)

(** Head at y = 300, shoulders at y = 280, all confidences 0.9: drowsy. *)
Example person_head_below_shoulders :
  check_drowsiness (person 300 (9 # 10)) (2 # 10) = Ok true.
Proof. reflexivity. Qed.

(** Head at y = 260: normal. *)
Example person_head_above_shoulders :
  check_drowsiness (person 260 (9 # 10)) (2 # 10) = Ok false.
Proof. reflexivity. Qed.

(** Fewer than seven keypoints: the shoulder lookup raises. *)
Example six_keypoints_raise :
  check_drowsiness (firstn 6 (person 300 (9 # 10))) (2 # 10) =
  Raise IndexError.
Proof. reflexivity. Qed.

(** No row above the box threshold: nothing drawn, nothing detected. *)
Example faint_row_only :
  process_pose_detections [[[row_faint]]] (640, 480)%Z 640%Z (1 # 4) (2 # 10) =
  Ok ([], [], false).
Proof. vm_compute. reflexivity. Qed.

(** An input size of zero stops the function at the scale factors. *)
Example zero_input_size :
  process_pose_detections [[[row_faint]]] (640, 480)%Z 0%Z (1 # 4) (2 # 10) =
  Raise ZeroDivisionError.
Proof. vm_compute. reflexivity. Qed.

(** [int] drops the fractional part on both sides of zero. *)
Example int_rounds_toward_zero :
  int_ (27 # 10) = 2%Z /\ int_ (- (27 # 10)) = (-2)%Z.
Proof. split; reflexivity. Qed.

(** ** Claims about the classifier *)

(** C2.  For every list of 17 keypoints and every threshold: when no
    head keypoint, or no shoulder keypoint, has a confidence strictly
    above the threshold, [check_drowsiness] returns normal (false),
    whatever the coordinates. *)
Theorem check_drowsiness_indeterminate_is_normal
    (keypoints : list keypoint) (thr : Q) :
  length keypoints = 17%nat ->
  confident_ys keypoints 0 5 thr = [] \/ confident_ys keypoints 5 2 thr = [] ->
  check_drowsiness keypoints thr = Ok false.
Proof.
  intros Hlen Hempty.
  rewrite (check_drowsiness_17 keypoints thr Hlen). cbv zeta.
  destruct Hempty as [H|H]; rewrite H.
  - reflexivity.
  - destruct (confident_ys keypoints 0 5 thr); reflexivity.
Qed.

Lemma check_drowsiness_indeterminate_is_normal_witness :
  check_drowsiness (person 300 (1 # 10)) (2 # 10) = Ok false.
Proof.
  apply (check_drowsiness_indeterminate_is_normal (person 300 (1 # 10)) (2 # 10)).
  - reflexivity.
  - left. vm_compute. reflexivity.
Defined.



(** ** The decoding loops *)

Lemma getitem_nth (d : detection) (i : nat) :
  (i < length d)%nat -> getitem d i = Ok (nth i d 0%Q).
Proof.
  intro H. unfold getitem. now rewrite (nth_error_nth' d 0%Q H).
Qed.

Lemma passes_gt (thr : Q) (d : detection) : passes thr d = gt (score_of d) thr.
Proof.
  unfold passes. destruct (Qlt_le_dec thr (score_of d)) as [H|H]; symmetry.
  - now apply gt_true_iff.
  - now apply gt_false_iff.
Qed.


Lemma filter_loop_ok (thr : Q) (rows : list detection) :
  forall valid,
    Forall (fun d => (4 < length d)%nat) rows ->
    filter_loop rows thr valid = Ok (valid ++ filter (passes thr) rows).
Proof.
  induction rows as [|d rows IH]; intros valid Hall; simpl.
  - now rewrite app_nil_r.
  - inversion Hall as [|? ? Hd Hrows]; subst.
    rewrite (getitem_nth d Hd). simpl bind.
    rewrite IH by assumption.
    rewrite passes_gt. unfold score_of.
    destruct (gt (nth 4 d 0) thr).
    + now rewrite <- app_assoc.
    + reflexivity.
Qed.



Lemma slice_triple (d : detection) (base : nat) :
  (base + 3 <= length d)%nat ->
  slice d base (base + 3) =
  [nth base d 0%Q; nth (base + 1) d 0%Q; nth (base + 2) d 0%Q].
Proof.
  intro H. unfold slice.
  replace (base + 3 - base)%nat with 3%nat by lia.
  destruct (@skipn_cons_nth Q d base) as [a [Ha Hsa]]; [lia|].
  destruct (@skipn_cons_nth Q d (S base)) as [b [Hb Hsb]]; [lia|].
  destruct (@skipn_cons_nth Q d (S (S base))) as [c [Hc Hsc]]; [lia|].
  rewrite Hsa, Hsb, Hsc. simpl.
  replace (base + 1)%nat with (S base) by lia.
  replace (base + 2)%nat with (S (S base)) by lia.
  now rewrite (nth_error_nth _ _ 0%Q Ha), (nth_error_nth _ _ 0%Q Hb),
    (nth_error_nth _ _ 0%Q Hc).
Qed.




Section Pipeline.

Variables original_width original_height : Z.
Variables scale_x scale_y kpt_conf_threshold : Q.








End Pipeline.

(** ** One detection, then all of them *)



Section Detections.

Variables original_width original_height : Z.
Variables scale_x scale_y kpt_conf_threshold : Q.





End Detections.

(** ** The whole function on well-formed rows *)


Lemma truediv_ok (a b : Z) :
  b <> 0%Z -> truediv a b = Ok (inject_Z a / inject_Z b)%Q.
Proof.
  intro H. unfold truediv. destruct (Z.eqb_spec b 0); [contradiction|reflexivity].
Qed.


(** ** Claims about the decoder and the frame flag *)







(** ** Rows that are too narrow *)





(** ** Scaling and clamping *)

Lemma int_truncation (q : Q) : truncation q (int_ q).
Proof.
  destruct q as [n p]. unfold truncation, int_, Qle, Qlt, Qabs, Qplus, Qmult.
  cbn [Qnum Qden inject_Z].
  assert (Hp : (0 < Z.pos p)%Z) by lia.
  assert (Habs : Z.abs (n ÷ Z.pos p) = (Z.abs n / Z.pos p)%Z).
  { rewrite <- (Z.quot_abs n (Z.pos p)) by lia.
    rewrite (Z.abs_eq (Z.pos p)) by lia.
    apply Z.quot_div_nonneg; lia. }
  assert (Hsign : (0 <= (n ÷ Z.pos p) * n)%Z).
  { destruct (Z.le_gt_cases 0 n) as [Hn|Hn].
    - apply Z.mul_nonneg_nonneg; [|exact Hn].
      apply Z.quot_pos; lia.
    - apply Z.mul_nonpos_nonpos; [|lia].
      replace n with (- (- n))%Z by lia.
      rewrite Z.quot_opp_l by lia.
      assert (0 <= (- n) ÷ Z.pos p)%Z by (apply Z.quot_pos; lia). lia. }
  pose proof (Z.mul_div_le (Z.abs n) (Z.pos p) Hp) as Hlow.
  pose proof (Z.mul_succ_div_gt (Z.abs n) (Z.pos p) Hp) as Hhigh.
  rewrite Habs. repeat split.
  - lia.
  - change (Z.pos (1 * 1)) with 1%Z. lia.
  - change (Z.pos (1 * p)) with (Z.pos p). lia.
Qed.

(** C5, as stated, fails: with an image 576 wide and the input size 640
    the scale is 0.9, and the model coordinate 1 is scaled to 0, while
    the integer nearest to 0.9 is 1. *)
Lemma scaling_is_not_rounding_to_nearest :
  truediv 576 640 = Ok (inject_Z 576 / inject_Z 640)%Q /\
  scale_box 1 1 1 1 (inject_Z 576 / inject_Z 640) (inject_Z 576 / inject_Z 640) =
  (0, 0, 0, 0)%Z /\
  ~ nearest_integer (1 * (inject_Z 576 / inject_Z 640)) 0 /\
  nearest_integer (1 * (inject_Z 576 / inject_Z 640)) 1.
Proof.
  split; [reflexivity|]. split; [reflexivity|]. split.
  - unfold nearest_integer. vm_compute. intro H. apply H. reflexivity.
  - unfold nearest_integer. vm_compute. discriminate.
Qed.

(** C6 on the code.  [clamp_box] only floors [x1], [y1] at 0 and only
    caps [x2], [y2] at width - 1, height - 1: a box that starts right of
    the image keeps [x1] above width - 1, and a box that ends left of it
    keeps a negative [x2]; the drawing call gets these corners. *)
Theorem clamp_box_is_one_sided :
  clamp_box 700 7 800 75 640 480 = (700, 7, 639, 75)%Z /\
  ~ in_image 640 480 (700, 7)%Z /\
  clamp_box (-50) 7 (-20) 75 640 480 = (0, 7, -20, 75)%Z /\
  ~ in_image 640 480 (-20, 75)%Z /\
  exists result_img valid_detections drowsiness_detected,
    process_pose_detections
      [[[raw_row 700 10 800 100 (9 # 10) (person 300 (9 # 10))]]]
      (640, 480)%Z 640%Z (1 # 4) (2 # 10) =
    Ok (result_img, valid_detections, drowsiness_detected) /\
    In (BlendedBox (700, 7)%Z (639, 75)%Z (0, 0, 255)%Z (3 # 10)) result_img.
Proof.
  split; [reflexivity|]. split; [unfold in_image; simpl; lia|].
  split; [reflexivity|]. split; [unfold in_image; simpl; lia|].
  do 3 eexists. split; [vm_compute; reflexivity|]. in_list.
Qed.

(** C10.  The scaled keypoints are not clamped.  For a row whose box and
    lower joints leave the model space, the keypoints handed to the
    classifier and drawn as circles lie outside the 640 x 480 image,
    while the corners of the box of the same detection were brought
    back into it. *)
Theorem keypoints_are_not_clamped :
  exists result_img valid_detections drowsiness_detected keypoints,
    process_pose_detections [[[row_outside]]] (640, 480)%Z 640%Z
      (1 # 4) (2 # 10) =
    Ok (result_img, valid_detections, drowsiness_detected) /\
    keypoints_loop row_outside (inject_Z 640 / inject_Z 640)
      (inject_Z 480 / inject_Z 640) (range 17) [] = Ok keypoints /\
    In (-5, 525, 9 # 10)%Z keypoints /\
    ~ in_image 640 480 (-5, 525)%Z /\
    In (Circle (-5, 525)%Z 4 (0, 255, 85)%Z (-1)) result_img /\
    scale_box (-10) 5 700 300 (inject_Z 640 / inject_Z 640)
      (inject_Z 480 / inject_Z 640) = (-10, 3, 700, 225)%Z /\
    In (BlendedBox (0, 3)%Z (639, 225)%Z (0, 0, 255)%Z (3 # 10)) result_img /\
    in_image 640 480 (0, 3)%Z /\ in_image 640 480 (639, 225)%Z.
Proof.
  do 4 eexists.
  split; [vm_compute; reflexivity|].
  split; [vm_compute; reflexivity|].
  split; [in_list|].
  split; [unfold in_image; simpl; lia|].
  split; [in_list|].
  split; [reflexivity|].
  split; [in_list|].
  split; unfold in_image; simpl; lia.
Qed.

(** * Further properties *)

(** ** The classifier on lists of any length *)

Lemma collect_y_coords_raise (keypoints : list keypoint) (thr : Q)
    (indices : list nat) :
  forall y_coords,
    Exists (fun idx => (length keypoints <= idx)%nat) indices ->
    collect_y_coords keypoints indices thr y_coords = Raise IndexError.
Proof.
  induction indices as [|idx rest IH]; intros acc Hex.
  - inversion Hex.
  - cbn [collect_y_coords].
    destruct (le_lt_dec (length keypoints) idx) as [Hout|Hin].
    + unfold getitem. rewrite (proj2 (nth_error_None keypoints idx) Hout).
      reflexivity.
    + destruct (getitem_lt keypoints Hin) as [[[x y] conf] [Hg _]].
      rewrite Hg. cbn [bind]. apply IH.
      inversion Hex as [? ? Hhead|? ? Hrest]; subst; [lia|exact Hrest].
Qed.

Lemma ge_truediv_cross (a b : Z) (n m : positive) :
  ge (inject_Z a / inject_Z (Z.pos n)) (inject_Z b / inject_Z (Z.pos m)) =
  (b * Z.pos n <=? a * Z.pos m)%Z.
Proof.
  unfold ge, Qle_bool, Qdiv, Qmult, Qinv, inject_Z. cbn [Qnum Qden].
  rewrite !Z.mul_1_r. change (1 * n)%positive with n.
  change (1 * m)%positive with m. reflexivity.
Qed.

(** With at least seven keypoints the classifier returns, and its
    answer is the division-free rule on the two groups. *)
Lemma check_drowsiness_cross (keypoints : list keypoint) (thr : Q) :
  (7 <= length keypoints)%nat ->
  check_drowsiness keypoints thr =
  Ok (cross_rule (confident_ys keypoints 0 5 thr)
        (confident_ys keypoints 5 2 thr)).
Proof.
  intro Hlen.
  assert (Hhead : collect_y_coords keypoints head_indices thr [] =
                  Ok (confident_ys keypoints 0 5 thr)).
  { rewrite collect_y_coords_ok.
    - change head_indices with (seq 0 5). rewrite picked_seq by lia.
      reflexivity.
    - unfold head_indices. repeat constructor; lia. }
  assert (Hshoulder : collect_y_coords keypoints shoulder_indices thr [] =
                      Ok (confident_ys keypoints 5 2 thr)).
  { rewrite collect_y_coords_ok.
    - change shoulder_indices with (seq 5 2). rewrite picked_seq by lia.
      reflexivity.
    - unfold shoulder_indices. repeat constructor; lia. }
  unfold check_drowsiness. rewrite Hhead. cbn [bind].
  rewrite Hshoulder. cbn [bind].
  unfold cross_rule.
  destruct (confident_ys keypoints 0 5 thr) as [|h hs]; [reflexivity|].
  destruct (confident_ys keypoints 5 2 thr) as [|s ss]; [reflexivity|].
  unfold len, truediv. cbn [length Nat.eqb negb andb].
  rewrite !Nat2Z.inj_succ. 
  destruct (Z.succ (Z.of_nat (length hs))) as [|n|n] eqn:En; try lia.
  destruct (Z.succ (Z.of_nat (length ss))) as [|m|m] eqn:Em; try lia.
  cbn [Z.eqb orb bind]. rewrite !sum_fold_right.
  now rewrite ge_truediv_cross.
Qed.

Lemma check_drowsiness_short (keypoints : list keypoint) (thr : Q) :
  (length keypoints < 7)%nat ->
  check_drowsiness keypoints thr = Raise IndexError.
Proof.
  intro Hlen. unfold check_drowsiness.
  destruct (le_lt_dec 5 (length keypoints)) as [Hhead|Hhead].
  - rewrite collect_y_coords_ok.
    2:{ unfold head_indices. repeat constructor; lia. }
    cbn [bind]. rewrite collect_y_coords_raise; [reflexivity|].
    unfold shoulder_indices. apply Exists_cons_tl, Exists_cons_hd. lia.
  - rewrite collect_y_coords_raise; [reflexivity|].
    unfold head_indices. do 4 apply Exists_cons_tl. apply Exists_cons_hd. lia.
Qed.


(** ** What the verdict does not depend on *)

Lemma slice_map {A B : Type} (g : A -> B) (l : list A) (lo hi : nat) :
  slice (map g l) lo hi = map g (slice l lo hi).
Proof.
  unfold slice. now rewrite skipn_map, firstn_map.
Qed.

Lemma filter_confident_map (g : keypoint -> keypoint) (thr : Q)
    (l : list keypoint) :
  (forall k, snd (g k) = snd k) ->
  filter (confident thr) (map g l) = map g (filter (confident thr) l).
Proof.
  intro Hconf. induction l as [|k l IH]; [reflexivity|].
  cbn [map filter].
  rewrite (confident_gt thr (g k)), (confident_gt thr k), Hconf, IH.
  destruct (gt (snd k) thr); reflexivity.
Qed.

(** A change of the keypoints that keeps every confidence and acts on
    the y-coordinates as [h] acts in the same way on the collected
    y-coordinates. *)
Lemma confident_ys_map (g : keypoint -> keypoint) (h : Z -> Z) (thr : Q)
    (keypoints : list keypoint) (lo n : nat) :
  (forall k, snd (g k) = snd k) ->
  (forall k, snd (fst (g k)) = h (snd (fst k))) ->
  confident_ys (map g keypoints) lo n thr =
  map h (confident_ys keypoints lo n thr).
Proof.
  intros Hconf Hy. unfold confident_ys.
  rewrite slice_map, filter_confident_map by assumption.
  rewrite !map_map. apply map_ext. intro k. apply Hy.
Qed.

(** A change of the keypoints that keeps their number and commutes with
    the rule on the collected y-coordinates keeps the classifier's
    result, the exception on short lists included. *)
Lemma check_drowsiness_map (g : keypoint -> keypoint) (h : Z -> Z) (thr : Q)
    (keypoints : list keypoint) :
  (forall k, snd (g k) = snd k) ->
  (forall k, snd (fst (g k)) = h (snd (fst k))) ->
  (forall head shoulder,
     cross_rule (map h head) (map h shoulder) = cross_rule head shoulder) ->
  check_drowsiness (map g keypoints) thr = check_drowsiness keypoints thr.
Proof.
  intros Hconf Hy Hrule.
  destruct (le_lt_dec 7 (length keypoints)) as [Hlong|Hshort].
  - rewrite !check_drowsiness_cross by (rewrite ?length_map; exact Hlong).
    rewrite !(confident_ys_map g h) by assumption.
    now rewrite Hrule.
  - rewrite !check_drowsiness_short by (rewrite ?length_map; exact Hshort).
    reflexivity.
Qed.

(** X5.  The x-coordinates play no part: replacing every x-coordinate by
    any function of it leaves the result of [check_drowsiness] as it
    is. *)
Theorem check_drowsiness_ignores_x
    (f : Z -> Z) (keypoints : list keypoint) (thr : Q) :
  check_drowsiness (map (move_x f) keypoints) thr =
  check_drowsiness keypoints thr.
Proof.
  apply (check_drowsiness_map (move_x f) (fun y => y)).
  - intros [[x y] conf]. reflexivity.
  - intros [[x y] conf]. reflexivity.
  - intros head shoulder. now rewrite !map_id.
Qed.

Lemma Permutation_filter_keeps {A : Type} (f : A -> bool) (l l' : list A) :
  Permutation l l' -> Permutation (filter f l) (filter f l').
Proof.
  induction 1 as [|x l l' _ IH|x y l|l l' l'' _ IH1 _ IH2]; cbn [filter].
  - constructor.
  - destruct (f x); [now constructor|exact IH].
  - destruct (f x); destruct (f y);
      try apply Permutation_refl. apply perm_swap.
  - now apply Permutation_trans with (filter f l').
Qed.

Lemma Permutation_sum (l l' : list Z) :
  Permutation l l' -> fold_right Z.add 0%Z l = fold_right Z.add 0%Z l'.
Proof.
  induction 1 as [|x l l' _ IH|x y l|l l' l'' _ IH1 _ IH2];
    cbn [fold_right]; lia.
Qed.

Lemma cross_rule_Permutation (head head' shoulder shoulder' : list Z) :
  Permutation head head' -> Permutation shoulder shoulder' ->
  cross_rule head shoulder = cross_rule head' shoulder'.
Proof.
  intros Hh Hs. unfold cross_rule.
  now rewrite (Permutation_sum Hh), (Permutation_sum Hs),
    (Permutation_length Hh), (Permutation_length Hs).
Qed.

(** X6.  Within a group the order of the keypoints plays no part: two
    lists whose head keypoints (indices 0-4) are a rearrangement of each
    other, and whose shoulder keypoints (indices 5-6) are too, get the
    same verdict. *)
Theorem check_drowsiness_order_within_groups
    (keypoints1 keypoints2 : list keypoint) (thr : Q) :
  (7 <= length keypoints1)%nat ->
  (7 <= length keypoints2)%nat ->
  Permutation (slice keypoints1 0 5) (slice keypoints2 0 5) ->
  Permutation (slice keypoints1 5 7) (slice keypoints2 5 7) ->
  check_drowsiness keypoints1 thr = check_drowsiness keypoints2 thr.
Proof.
  intros Hlen1 Hlen2 Hhead Hshoulder.
  rewrite !check_drowsiness_cross by assumption. f_equal.
  apply cross_rule_Permutation; unfold confident_ys;
    apply Permutation_map, Permutation_filter_keeps; assumption.
Qed.

Lemma check_drowsiness_order_within_groups_witness :
  check_drowsiness
    ([(1, 310, 9 # 10); (2, 290, 1 # 10); (3, 300, 9 # 10);
      (4, 305, 9 # 10); (5, 295, 9 # 10);
      (6, 300, 9 # 10); (7, 280, 9 # 10)]%Z) (2 # 10) =
  check_drowsiness
    ([(1, 310, 9 # 10); (3, 300, 9 # 10); (2, 290, 1 # 10);
      (4, 305, 9 # 10); (5, 295, 9 # 10);
      (7, 280, 9 # 10); (6, 300, 9 # 10)]%Z) (2 # 10).
Proof.
  apply (@check_drowsiness_order_within_groups
           ([(1, 310, 9 # 10); (2, 290, 1 # 10); (3, 300, 9 # 10);
             (4, 305, 9 # 10); (5, 295, 9 # 10);
             (6, 300, 9 # 10); (7, 280, 9 # 10)]%Z)
           ([(1, 310, 9 # 10); (3, 300, 9 # 10); (2, 290, 1 # 10);
             (4, 305, 9 # 10); (5, 295, 9 # 10);
             (7, 280, 9 # 10); (6, 300, 9 # 10)]%Z)
           (2 # 10)).
  - simpl. lia.
  - simpl. lia.
  - simpl. apply perm_skip. apply perm_swap.
  - simpl. apply perm_swap.
Defined.

(** Equal confidences at indices 0-6, and equal y-coordinates where the
    confidence is above the threshold, give equal results. *)
Lemma check_drowsiness_same_confident_ys
    (keypoints1 keypoints2 : list keypoint) (thr : Q) :
  (7 <= length keypoints1)%nat ->
  (7 <= length keypoints2)%nat ->
  (forall i k1 k2, (i < 7)%nat ->
     nth_error keypoints1 i = Some k1 ->
     nth_error keypoints2 i = Some k2 ->
     snd k1 = snd k2 /\ ((thr < snd k1)%Q -> snd (fst k1) = snd (fst k2))) ->
  check_drowsiness keypoints1 thr = check_drowsiness keypoints2 thr.
Proof.
  intros Hlen1 Hlen2 Hsame.
  assert (Hpicked : forall i, (i < 7)%nat ->
            picked thr (nth_error keypoints1 i) =
            picked thr (nth_error keypoints2 i)).
  { intros i Hi.
    destruct (@getitem_lt keypoint keypoints1 i) as [k1 [_ H1]]; [lia|].
    destruct (@getitem_lt keypoint keypoints2 i) as [k2 [_ H2]]; [lia|].
    destruct (Hsame i k1 k2 Hi H1 H2) as [Hconf Hy].
    rewrite H1, H2. destruct k1 as [[x1 y1] c1], k2 as [[x2 y2] c2].
    cbn [fst snd] in Hconf, Hy. subst c2. cbn [picked].
    destruct (gt c1 thr) eqn:E; [|reflexivity].
    apply gt_true_iff in E. now rewrite (Hy E). }
  assert (Hcollect : forall indices,
            Forall (fun idx => (idx < 7)%nat) indices ->
            collect_y_coords keypoints1 indices thr [] =
            collect_y_coords keypoints2 indices thr []).
  { intros indices Hall.
    rewrite !collect_y_coords_ok
      by (eapply Forall_impl; [|exact Hall]; cbv beta; intros; lia).
    f_equal. f_equal. rewrite !flat_map_concat_map. f_equal.
    apply map_ext_in. intros i Hi. apply Hpicked.
    exact (proj1 (Forall_forall _ _) Hall i Hi). }
  unfold check_drowsiness.
  rewrite (Hcollect head_indices)
    by (unfold head_indices; repeat constructor; lia).
  rewrite (Hcollect shoulder_indices)
    by (unfold shoulder_indices; repeat constructor; lia).
  reflexivity.
Qed.

(** X7.  A head or shoulder keypoint whose confidence is not above the
    threshold has no influence through its coordinates: two lists with
    the same confidences at indices 0-6, and the same y-coordinate
    wherever that confidence is above the threshold, get the same
    verdict. *)
Theorem check_drowsiness_ignores_unconfident
    (keypoints1 keypoints2 : list keypoint) (thr : Q) :
  (7 <= length keypoints1)%nat ->
  (7 <= length keypoints2)%nat ->
  (forall i k1 k2, (i < 7)%nat ->
     nth_error keypoints1 i = Some k1 ->
     nth_error keypoints2 i = Some k2 ->
     snd k1 = snd k2 /\ ((thr < snd k1)%Q -> snd (fst k1) = snd (fst k2))) ->
  check_drowsiness keypoints1 thr = check_drowsiness keypoints2 thr.
Proof.
  apply check_drowsiness_same_confident_ys.
Qed.

Lemma check_drowsiness_ignores_unconfident_witness :
  check_drowsiness (person 300 (1 # 10)) (2 # 10) =
  check_drowsiness (person 5 (1 # 10)) (2 # 10).
Proof.
  apply (@check_drowsiness_ignores_unconfident
           (person 300 (1 # 10)) (person 5 (1 # 10)) (2 # 10)).
  - simpl. lia.
  - simpl. lia.
  - intros i k1 k2 Hi H1 H2.
    do 7 (destruct i as [|i];
          [inversion H1; inversion H2; subst; split;
           [reflexivity|intro H; vm_compute in H; first [discriminate|reflexivity]]|]).
    lia.
Defined.

(** ** Exceptions of process_pose_detections *)

Lemma filter_loop_raise (thr : Q) (rows : list detection) :
  forall valid,
    Exists (fun d => (length d < 5)%nat) rows ->
    filter_loop rows thr valid = Raise IndexError.
Proof.
  induction rows as [|d rows IH]; intros valid Hex.
  - inversion Hex.
  - cbn [filter_loop].
    destruct (le_lt_dec 5 (length d)) as [Hlong|Hshort].
    + rewrite (@getitem_nth d 4) by lia. cbn [bind]. apply IH.
      inversion Hex as [? ? Hhead|? ? Hrest]; subst; [lia|exact Hrest].
    + unfold getitem.
      rewrite (proj2 (nth_error_None d 4)) by lia. reflexivity.
Qed.

(** X8.  The score of every row is read, whether the row is kept or not:
    when some row has fewer than five columns the function raises
    IndexError, for every image size, input size and pair of
    thresholds. *)
Theorem short_row_raises_index_error
    (rows : list detection) (more : list tensor)
    (original_size : Z * Z) (input_size : Z)
    (conf_threshold kpt_conf_threshold : Q) :
  Exists (fun d => (length d < 5)%nat) rows ->
  process_pose_detections ([rows] :: more) original_size input_size
    conf_threshold kpt_conf_threshold = Raise IndexError.
Proof.
  intro Hex. unfold process_pose_detections.
  destruct original_size as [original_width original_height].
  cbn [getitem nth_error bind].
  now rewrite filter_loop_raise.
Qed.

Lemma short_row_raises_index_error_witness :
  process_pose_detections ([[row_drowsy; [1; 2; 3; 1]%Q]] :: [])
    (640, 480)%Z 640%Z (99 # 100) (2 # 10) = Raise IndexError.
Proof.
  apply (@short_row_raises_index_error
           [row_drowsy; [1; 2; 3; 1]%Q] [] (640, 480)%Z 640%Z
           (99 # 100) (2 # 10)).
  apply Exists_cons_tl, Exists_cons_hd. simpl. lia.
Defined.

(** X9.  The scale factors are computed before the detections are
    looked at: with an input size of 0 and rows of at least five columns
    the function raises ZeroDivisionError, even when no row is above the
    box threshold or the tensor has no row at all. *)
Theorem zero_input_size_raises
    (rows : list detection) (more : list tensor)
    (original_size : Z * Z) (conf_threshold kpt_conf_threshold : Q) :
  Forall (fun d => (5 <= length d)%nat) rows ->
  process_pose_detections ([rows] :: more) original_size 0%Z
    conf_threshold kpt_conf_threshold = Raise ZeroDivisionError.
Proof.
  intro Hrows. unfold process_pose_detections.
  destruct original_size as [original_width original_height].
  cbn [getitem nth_error bind].
  rewrite filter_loop_ok.
  2:{ eapply Forall_impl; [|exact Hrows]. cbv beta. intros d Hd. lia. }
  reflexivity.
Qed.

Lemma zero_input_size_raises_witness :
  process_pose_detections ([[row_faint]] :: []) (640, 480)%Z 0%Z
    (1 # 4) (2 # 10) = Raise ZeroDivisionError.
Proof.
  apply (@zero_input_size_raises [row_faint] [] (640, 480)%Z (1 # 4) (2 # 10)).
  apply Forall_cons; [simpl; lia|constructor].
Defined.



(** ** Rows wider than 57 columns *)




Section Wide.

Variables original_width original_height : Z.
Variables scale_x scale_y kpt_conf_threshold : Q.




End Wide.



(** ** How the result depends on the rows, the thresholds and the size *)

Lemma bool_eq_iff (b1 b2 : bool) : (b1 = true <-> b2 = true) -> b1 = b2.
Proof.
  destruct b1, b2; intros [H1 H2]; try reflexivity.
  - symmetry. now apply H1.
  - now apply H2.
Qed.






(** ** What is drawn *)

Lemma bind_Ok {A B : Type} (c : result A) (k : A -> result B) (r : B) :
  bind c k = Ok r -> exists a, c = Ok a /\ k a = Ok r.
Proof.
  destruct c as [a|e]; cbn [bind]; intro H.
  - exists a. split; [reflexivity|exact H].
  - discriminate.
Qed.

Tactic Notation "bind_inv" hyp(H) "as" ident(a) ident(Ha) :=
  apply bind_Ok in H; destruct H as [a [Ha H]].




Section Drawn.

Variables original_width original_height : Z.
Variables scale_x scale_y kpt_conf_threshold : Q.



End Drawn.









(** ** More on scaling and clamping *)

Lemma int_floor_or_ceiling (q : Q) :
  int_ q = if (0 <=? Qnum q)%Z then Qfloor q else Qceiling q.
Proof.
  destruct q as [n d]. unfold int_, Qceiling, Qfloor, Qopp. cbn [Qnum Qden].
  destruct (Z.leb_spec 0 n) as [Hn|Hn].
  - apply Z.quot_div_nonneg; lia.
  - rewrite <- (Z.quot_div_nonneg (- n) (Z.pos d)) by lia.
    rewrite Z.quot_opp_l by lia. lia.
Qed.

Lemma int_comp (q q' : Q) : (q == q')%Q -> int_ q = int_ q'.
Proof.
  intro Heq. rewrite !int_floor_or_ceiling.
  assert (Hsign : (0 <=? Qnum q)%Z = (0 <=? Qnum q')%Z).
  { unfold Qeq in Heq.
    destruct (Z.leb_spec 0 (Qnum q)); destruct (Z.leb_spec 0 (Qnum q'));
      try reflexivity; exfalso; nia. }
  rewrite Hsign. destruct (0 <=? Qnum q')%Z.
  - now apply Qfloor_comp.
  - now apply Qceiling_comp.
Qed.




(** X19.  When the image has the size of the model input, scaling is
    [int] alone: the scale factor size / size changes no coordinate
    before the truncation. *)
Theorem same_size_scaling_is_int (size : Z) (x1 y1 x2 y2 : Q) :
  size <> 0%Z ->
  exists scale,
    truediv size size = Ok scale /\
    scale_box x1 y1 x2 y2 scale scale = (int_ x1, int_ y1, int_ x2, int_ y2).
Proof.
  intro Hsize. exists (inject_Z size / inject_Z size)%Q.
  split; [now apply truediv_ok|].
  assert (Hone : forall q, (q * (inject_Z size / inject_Z size) == q)%Q).
  { intro q. unfold Qdiv. rewrite Qmult_inv_r.
    - apply Qmult_1_r.
    - unfold Qeq. cbn [Qnum Qden inject_Z]. lia. }
  unfold scale_box.
  now rewrite (int_comp (Hone x1)), (int_comp (Hone y1)),
    (int_comp (Hone x2)), (int_comp (Hone y2)).
Qed.

Lemma same_size_scaling_is_int_witness :
  exists scale,
    truediv 640 640 = Ok scale /\
    scale_box (1 # 2) (-3) (7 # 3) 11 scale scale =
    (int_ (1 # 2), int_ (-3), int_ (7 # 3), int_ 11).
Proof.
  apply (@same_size_scaling_is_int 640%Z (1 # 2) (-3) (7 # 3) 11). lia.
Defined.

(** X20.  When the clamping brings a box into the image: both corners
    of the clamped box lie in the image exactly when the scaled box
    starts at or before the last pixel and ends at or after pixel 0, in
    both directions; and clamping twice is clamping once. *)
Theorem clamp_box_in_image_iff (x1 y1 x2 y2 original_width original_height : Z) :
  exists x1' y1' x2' y2',
    clamp_box x1 y1 x2 y2 original_width original_height =
    (x1', y1', x2', y2') /\
    (in_image original_width original_height (x1', y1') /\
     in_image original_width original_height (x2', y2') <->
     (x1 <= original_width - 1 /\ y1 <= original_height - 1 /\
      0 <= x2 /\ 0 <= y2 /\
      0 < original_width /\ 0 < original_height)%Z) /\
    clamp_box x1' y1' x2' y2' original_width original_height =
    (x1', y1', x2', y2').
Proof.
  unfold clamp_box, in_image. do 4 eexists. split; [reflexivity|].
  cbn [fst snd]. split.
  - lia.
  - f_equal; [f_equal; [f_equal|]|]; lia.
Qed.

(** ** What main reports *)



(** ** Drawing without confident keypoints *)

Lemma limbs_loop_unconfident (keypoints : list keypoint) (thr : Q)
    (limbs : list (nat * (nat * nat))) (result_img : image) :
  Forall (fun k => (snd k <= thr)%Q) keypoints ->
  Forall (fun l => (fst (snd l) < length keypoints)%nat /\
                   (snd (snd l) < length keypoints)%nat) limbs ->
  limbs_loop keypoints thr limbs result_img = Ok result_img.
Proof.
  intros Hlow. induction limbs as [|[limb_idx [start_idx end_idx]] rest IH];
    intro Hall; cbn [limbs_loop].
  - reflexivity.
  - inversion Hall as [|? ? [Hs He] Hrest]; subst. cbn [fst snd] in Hs, He.
    destruct (getitem_lt keypoints Hs) as [ks [Hks Hns]].
    destruct (getitem_lt keypoints He) as [ke [Hke _]].
    rewrite Hks, Hke. cbn [bind].
    assert (Hgt : gt (snd ks) thr = false).
    { apply gt_false_iff.
      exact (proj1 (Forall_forall _ _) Hlow ks (nth_error_In _ _ Hns)). }
    rewrite Hgt. cbn [andb]. now apply IH.
Qed.

Lemma circles_loop_unconfident (thr : Q) (kpts : list (nat * keypoint))
    (result_img : image) :
  Forall (fun p => (snd (snd p) <= thr)%Q) kpts ->
  circles_loop thr kpts result_img = Ok result_img.
Proof.
  induction kpts as [|[kpt_idx [[kx ky] kp_conf]] rest IH];
    intro Hall; cbn [circles_loop].
  - reflexivity.
  - inversion Hall as [|? ? Hk Hrest]; subst. cbn [snd] in Hk.
    rewrite (proj2 (gt_false_iff kp_conf thr) Hk). now apply IH.
Qed.

(** X22.  Nothing of the skeleton is drawn for a person without a
    confident keypoint: when no confidence of the 17 keypoints is above
    the threshold, the skeleton loop and the keypoint loop return the
    image as they got it. *)
Theorem no_confident_keypoint_no_skeleton
    (keypoints : list keypoint) (thr : Q) (result_img : image) :
  length keypoints = 17%nat ->
  Forall (fun k => (snd k <= thr)%Q) keypoints ->
  limbs_loop keypoints thr (enumerate SKELETON_CONNECTIONS) result_img =
  Ok result_img /\
  circles_loop thr (enumerate keypoints) result_img = Ok result_img.
Proof.
  intros Hlen Hlow. split.
  - apply limbs_loop_unconfident; [exact Hlow|].
    rewrite Hlen. unfold enumerate, SKELETON_CONNECTIONS. simpl.
    repeat constructor; simpl; lia.
  - apply circles_loop_unconfident.
    apply Forall_forall. intros [i k] Hin. unfold enumerate in Hin.
    apply in_combine_r in Hin. cbn [snd].
    exact (proj1 (Forall_forall _ _) Hlow k Hin).
Qed.

Lemma no_confident_keypoint_no_skeleton_witness :
  limbs_loop (repeat (10, 20, 1 # 10)%Z 17) (2 # 10)
    (enumerate SKELETON_CONNECTIONS) [] = Ok [] /\
  circles_loop (2 # 10) (enumerate (repeat (10, 20, 1 # 10)%Z 17)) [] = Ok [].
Proof.
  apply (@no_confident_keypoint_no_skeleton
           (repeat (10, 20, 1 # 10)%Z 17) (2 # 10) []).
  - reflexivity.
  - repeat constructor; vm_compute; discriminate.
Defined.

(** ** The input tensor *)

Lemma nth_map_lt {A B : Type} (f : A -> B) (l : list A) (i : nat)
    (d' : B) (d : A) :
  (i < length l)%nat -> nth i (map f l) d' = f (nth i l d).
Proof.
  intro Hi. rewrite (nth_indep _ d' (f d)) by (rewrite length_map; lia).
  apply map_nth.
Qed.

Lemma normalised_in_unit_interval (v : Z) :
  (0 <= v <= 255)%Z ->
  (0 <= inject_Z v / 255)%Q /\ (inject_Z v / 255 <= 1)%Q.
Proof.
  intro Hv. unfold Qle, Qdiv, Qmult, Qinv, inject_Z. cbn. lia.
Qed.

(** ** Decoding one row *)


(** ** Colours and the flag *)

Section Colours.

Variables original_width original_height : Z.
Variables scale_x scale_y kpt_conf_threshold : Q.




End Colours.



(** * Floating point *)

(** ** The roundings on known values *)

Example float32_of_python_0_2 : Fp.float32 python_0_2 = Fp.Fin float32_0_2.
Proof. vm_compute. reflexivity. Qed.

Example binary64_of_0_2 : Fp.binary64 (2 # 10) = Fp.Fin python_0_2.
Proof. vm_compute. reflexivity. Qed.

(** 2^53 + 1 lies half way between two binary64 numbers and goes to the
    even one. *)
Example binary64_tie_to_even :
  Fp.binary64 (inject_Z (2 ^ 53 + 1)) = Fp.Fin (inject_Z (2 ^ 53)) /\
  Fp.binary64 (inject_Z (2 ^ 53 + 3)) = Fp.Fin (inject_Z (2 ^ 53 + 4)).
Proof. split; vm_compute; reflexivity. Qed.

Example float32_overflow :
  Fp.float32 (inject_Z (10 ^ 39)) = Fp.Inf false /\
  Fp.float32 (- inject_Z (10 ^ 39)) = Fp.Inf true /\
  Fp.float32 (inject_Z (3 * 10 ^ 38)) <> Fp.Inf false.
Proof. repeat split; vm_compute; try reflexivity; discriminate. Qed.

(** The product is a float32 product: the scale 672 / 640 becomes the
    float32 1.0499999523, and 60 times it is below 63. *)
Example scaled_60_by_672_over_640 :
  Fp.truediv 672 640 = Ok (4728779608739021 # 4503599627370496) /\
  Fp.int (Fp.mul 60 (4728779608739021 # 4503599627370496)) = Ok 62%Z /\
  int_ (60 * (inject_Z 672 / inject_Z 640)) = 63%Z.
Proof. repeat split; vm_compute; reflexivity. Qed.

Example overflowing_product_raises :
  Fp.int (Fp.mul (inject_Z (3 * 10 ^ 38)) 2) = Raise OverflowError /\
  Fp.int (Fp.mul 0 (inject_Z (10 ^ 39))) = Raise ValueError.
Proof. split; vm_compute; reflexivity. Qed.

(** NumPy 2 multiplies in float32: 180 times the scale 224 / 640 is the
    float32 63.0, although the binary64 product of the same two numbers
    lies just below 63. *)
Example scaled_180_by_224_over_640 :
  Fp.truediv 224 640 = Ok (3152519739159347 # 9007199254740992) /\
  Fp.mul 180 (3152519739159347 # 9007199254740992) = Fp.Fin 63 /\
  Fp.binary64 (180 * (3152519739159347 # 9007199254740992)) =
  Fp.Fin (8866461766385663 # 140737488355328) /\
  (8866461766385663 # 140737488355328 < 63)%Q.
Proof. repeat split; vm_compute; reflexivity. Qed.

(** The scale 576 / 640 takes the coordinate 1 to 0 with the roundings
    too. *)
Example scaled_1_by_576_over_640 :
  Fp.truediv 576 640 = Ok (8106479329266893 # 9007199254740992) /\
  Fp.scale_box 1 1 1 1 (8106479329266893 # 9007199254740992)
    (8106479329266893 # 9007199254740992) = Ok (0, 0, 0, 0)%Z.
Proof. split; vm_compute; reflexivity. Qed.


(** ** The classifier with its roundings *)

Lemma fp_gt_above (thr : Q) (k : keypoint) :
  Fp.gt (snd k) thr = above_float32 thr k.
Proof.
  unfold Fp.gt, above_float32.
  destruct (Fp.float32 thr) as [t|negative|]; try reflexivity.
  destruct (Qlt_le_dec t (snd k)) as [H|H].
  - now apply gt_true_iff.
  - now apply gt_false_iff.
Qed.

Lemma fp_collect_y_coords_ok (keypoints : list keypoint) (thr : Q)
    (indices : list nat) :
  forall y_coords,
    Forall (fun idx => (idx < length keypoints)%nat) indices ->
    Fp.collect_y_coords keypoints indices thr y_coords =
    Ok (y_coords ++
        flat_map (fun idx => picked_float32 thr (nth_error keypoints idx))
          indices).
Proof.
  induction indices as [|idx rest IH]; intros acc Hall;
    cbn [Fp.collect_y_coords flat_map].
  - now rewrite app_nil_r.
  - inversion Hall as [|? ? Hidx Hrest]; subst.
    destruct (getitem_lt keypoints Hidx) as [[[x y] conf] [Hg Hn]].
    rewrite Hg, Hn. cbn [bind picked_float32].
    rewrite IH by assumption.
    destruct (Fp.gt conf thr); cbn [app].
    + now rewrite <- app_assoc.
    + reflexivity.
Qed.

Lemma picked_float32_slice (thr : Q) (l : list keypoint) :
  flat_map (fun k => picked_float32 thr (Some k)) l =
  map (fun k => snd (fst k)) (filter (above_float32 thr) l).
Proof.
  induction l as [|[[x y] conf] l IH].
  - reflexivity.
  - cbn [flat_map filter]. rewrite <- fp_gt_above, IH.
    cbn [snd picked_float32]. destruct (Fp.gt conf thr); reflexivity.
Qed.

Lemma picked_float32_seq (keypoints : list keypoint) (thr : Q) (lo n : nat) :
  (lo + n <= length keypoints)%nat ->
  flat_map (fun idx => picked_float32 thr (nth_error keypoints idx))
    (seq lo n) =
  above_float32_ys keypoints lo n thr.
Proof.
  intro H. unfold above_float32_ys.
  rewrite <- picked_float32_slice.
  rewrite !flat_map_concat_map.
  rewrite <- (map_map (nth_error keypoints) (picked_float32 thr)).
  rewrite nth_error_seq_slice by assumption.
  now rewrite map_map.
Qed.

(** The quotient of a non-empty list: the rounded mean, or OverflowError
    when it is too large for a binary64. *)
Lemma fp_truediv_mean (y : Z) (ys : list Z) :
  Fp.truediv (sum (y :: ys)) (len (y :: ys)) =
  match Fp.binary64 (mean (y :: ys)) with
  | Fp.Fin f => Ok f
  | _ => Raise OverflowError
  end.
Proof.
  unfold Fp.truediv, mean, len. rewrite sum_fold_right.
  destruct (Z.eqb_spec (Z.of_nat (length (y :: ys))) 0) as [H|_].
  - cbn [length] in H. lia.
  - reflexivity.
Qed.

(** With 17 keypoints the classifier reads the two groups and divides
    only when both are non-empty. *)
Lemma fp_check_drowsiness_17 (keypoints : list keypoint) (thr : Q) :
  length keypoints = 17%nat ->
  Fp.check_drowsiness keypoints thr =
  match above_float32_ys keypoints 0 5 thr,
        above_float32_ys keypoints 5 2 thr with
  | [], _ | _, [] => Ok false
  | h :: hs, s :: ss =>
      avg_head_y <- Fp.truediv (sum (h :: hs)) (len (h :: hs)) ;;
      avg_shoulder_y <- Fp.truediv (sum (s :: ss)) (len (s :: ss)) ;;
      Ok (Fp.ge avg_head_y avg_shoulder_y)
  end.
Proof.
  intro Hlen.
  assert (Hhead : Fp.collect_y_coords keypoints head_indices thr [] =
                  Ok (above_float32_ys keypoints 0 5 thr)).
  { rewrite fp_collect_y_coords_ok.
    - change head_indices with (seq 0 5). rewrite picked_float32_seq by lia.
      reflexivity.
    - unfold head_indices. repeat constructor; lia. }
  assert (Hshoulder : Fp.collect_y_coords keypoints shoulder_indices thr [] =
                      Ok (above_float32_ys keypoints 5 2 thr)).
  { rewrite fp_collect_y_coords_ok.
    - change shoulder_indices with (seq 5 2).
      rewrite picked_float32_seq by lia. reflexivity.
    - unfold shoulder_indices. repeat constructor; lia. }
  unfold Fp.check_drowsiness. rewrite Hhead. cbn [bind].
  rewrite Hshoulder. cbn [bind].
  destruct (above_float32_ys keypoints 0 5 thr) as [|h hs]; [reflexivity|].
  destruct (above_float32_ys keypoints 5 2 thr) as [|s ss]; [reflexivity|].
  assert (Hh : (len (h :: hs) =? 0)%Z = false).
  { destruct (len (h :: hs) =? 0)%Z eqn:E; [|reflexivity].
    apply len_zero_iff in E. discriminate. }
  assert (Hs : (len (s :: ss) =? 0)%Z = false).
  { destruct (len (s :: ss) =? 0)%Z eqn:E; [|reflexivity].
    apply len_zero_iff in E. discriminate. }
  rewrite Hh, Hs. reflexivity.
Qed.

(** ** The rounding of [Fp] is monotone and keeps what fits *)

Module Rounding.

Import Fp.

Unset Implicit Arguments.

Lemma Fin_inj (a b : Q) : Fin a = Fin b -> a = b.
Proof. intro H. now injection H. Qed.

(** ** Powers of two *)

Lemma pow2_pos (e : Z) : (0 < pow2 e)%Q.
Proof. apply Qpower_0_lt. reflexivity. Qed.

Lemma pow2_add (a b : Z) : (pow2 (a + b) == pow2 a * pow2 b)%Q.
Proof. apply Qpower_plus. discriminate. Qed.

Lemma pow2_le (a b : Z) : (a <= b)%Z -> (pow2 a <= pow2 b)%Q.
Proof. intro H. apply Qpower_le_compat_l; [exact H|discriminate]. Qed.

Lemma pow2_lt_inv (a b : Z) : (pow2 a < pow2 b)%Q -> (a < b)%Z.
Proof. intro H. apply (Qpower_lt_compat_l_inv 2); [exact H|reflexivity]. Qed.

Lemma pow2_Z (e : Z) : (0 <= e)%Z -> (pow2 e == inject_Z (2 ^ e))%Q.
Proof. intro H. symmetry. apply (Zpower_Qpower 2 e H). Qed.

(** ** The integer logarithm *)

Lemma ilog2_spec (q : Q) :
  (0 < q)%Q -> (pow2 (ilog2 q) <= q)%Q /\ (q < pow2 (ilog2 q + 1))%Q.
Proof.
  intro Hq. destruct q as [n d].
  assert (Hn : (0 < n)%Z) by (unfold Qlt in Hq; cbn in Hq; lia).
  unfold ilog2. cbn [Qnum Qden].
  set (a := Z.log2 n). set (b := Z.log2 (Z.pos d)).
  destruct (Z.log2_spec n Hn) as [Ha1 Ha2]. fold a in Ha1, Ha2.
  destruct (Z.log2_spec (Z.pos d) eq_refl) as [Hb1 Hb2]. fold b in Hb1, Hb2.
  assert (Ha0 : (0 <= a)%Z) by apply Z.log2_nonneg.
  assert (Hb0 : (0 <= b)%Z) by apply Z.log2_nonneg.
  assert (Hq_eq : (n # d == inject_Z n / inject_Z (Z.pos d))%Q)
    by apply Qmake_Qdiv.
  assert (Hdpos : (0 < inject_Z (Z.pos d))%Q) by reflexivity.
  (* 2^(a-b-1) < q < 2^(a-b+1) *)
  assert (Hlow : (pow2 (a - b - 1) < n # d)%Q).
  { rewrite Hq_eq. apply Qlt_shift_div_l; [exact Hdpos|].
    apply Qlt_le_trans with (pow2 (a - b - 1) * pow2 (b + 1))%Q.
    - apply Qmult_lt_l; [apply pow2_pos|].
      rewrite (pow2_Z (b + 1)) by lia. rewrite <- Zlt_Qlt.
      replace (b + 1)%Z with (Z.succ b) by lia. exact Hb2.
    - rewrite <- pow2_add. replace (a - b - 1 + (b + 1))%Z with a by lia.
      rewrite (pow2_Z a) by lia. rewrite <- Zle_Qle. exact Ha1. }
  assert (Hhigh : (n # d < pow2 (a - b + 1))%Q).
  { rewrite Hq_eq. apply Qlt_shift_div_r; [exact Hdpos|].
    apply Qlt_le_trans with (pow2 (a - b + 1) * pow2 b)%Q.
    - rewrite <- pow2_add. replace (a - b + 1 + b)%Z with (Z.succ a) by lia.
      rewrite (pow2_Z (Z.succ a)) by lia. rewrite <- Zlt_Qlt. exact Ha2.
    - apply Qmult_le_l; [apply pow2_pos|].
      rewrite (pow2_Z b) by lia. rewrite <- Zle_Qle. exact Hb1. }
  destruct (Qle_bool (pow2 (a - b)) (n # d)) eqn:E.
  - apply Qle_bool_iff in E. split; [exact E|exact Hhigh].
  - split.
    + apply Qlt_le_weak. exact Hlow.
    + replace (a - b - 1 + 1)%Z with (a - b)%Z by lia.
      apply Qnot_le_lt. intro H. apply Qle_bool_iff in H. congruence.
Qed.

Lemma ilog2_unique (q : Q) (k : Z) :
  (pow2 k <= q)%Q -> (q < pow2 (k + 1))%Q -> ilog2 q = k.
Proof.
  intros Hlow Hhigh.
  assert (Hq : (0 < q)%Q) by (eapply Qlt_le_trans; [apply pow2_pos|exact Hlow]).
  destruct (ilog2_spec q Hq) as [Hl Hh].
  assert (ilog2 q < k + 1)%Z
    by (apply pow2_lt_inv; eapply Qle_lt_trans; eassumption).
  assert (k < ilog2 q + 1)%Z
    by (apply pow2_lt_inv; eapply Qle_lt_trans; eassumption).
  lia.
Qed.

Lemma ilog2_mono (q1 q2 : Q) :
  (0 < q1)%Q -> (q1 <= q2)%Q -> (ilog2 q1 <= ilog2 q2)%Z.
Proof.
  intros H1 H12.
  assert (H2 : (0 < q2)%Q) by (eapply Qlt_le_trans; eassumption).
  destruct (ilog2_spec q1 H1) as [Hl1 _].
  destruct (ilog2_spec q2 H2) as [_ Hh2].
  assert (ilog2 q1 < ilog2 q2 + 1)%Z.
  { apply pow2_lt_inv. eapply Qle_lt_trans; [exact Hl1|].
    eapply Qle_lt_trans; eassumption. }
  lia.
Qed.

(** ** Rounding to the nearest integer *)

Lemma rne_bounds (q : Q) : (Qfloor q <= rne q <= Qfloor q + 1)%Z.
Proof.
  unfold rne. destruct (Qcompare (q - inject_Z (Qfloor q)) (1 # 2));
    try destruct (Z.even (Qfloor q)); lia.
Qed.

Lemma rne_Z (z : Z) : rne (inject_Z z) = z.
Proof.
  unfold rne. rewrite Qfloor_Z.
  assert (H : Qcompare (inject_Z z - inject_Z z) (1 # 2) = Lt).
  { apply Qlt_alt. setoid_replace (inject_Z z - inject_Z z)%Q with 0%Q by ring.
    reflexivity. }
  now rewrite H.
Qed.

Lemma rne_comp (q q' : Q) : (q == q')%Q -> rne q = rne q'.
Proof.
  intro H. unfold rne. rewrite (Qfloor_comp _ _ H).
  assert (Hc : Qcompare (q - inject_Z (Qfloor q')) (1 # 2) =
               Qcompare (q' - inject_Z (Qfloor q')) (1 # 2)).
  { apply Qcompare_comp; [|reflexivity]. now rewrite H. }
  now rewrite Hc.
Qed.

Lemma rne_mono (q1 q2 : Q) : (q1 <= q2)%Q -> (rne q1 <= rne q2)%Z.
Proof.
  intro H12.
  pose proof (Qfloor_resp_le _ _ H12) as Hf.
  destruct (Z.eq_dec (Qfloor q1) (Qfloor q2)) as [Heq|Hne].
  - unfold rne. rewrite Heq.
    assert (Hr : (q1 - inject_Z (Qfloor q2) <= q2 - inject_Z (Qfloor q2))%Q).
    { apply Qplus_le_compat; [exact H12|apply Qle_refl]. }
    destruct (Qcompare (q1 - inject_Z (Qfloor q2)) (1 # 2)) eqn:E1;
      destruct (Qcompare (q2 - inject_Z (Qfloor q2)) (1 # 2)) eqn:E2;
      try destruct (Z.even (Qfloor q2)); try lia; exfalso;
      repeat match goal with
             | H : Qcompare _ _ = Eq |- _ => apply Qeq_alt in H
             | H : Qcompare _ _ = Lt |- _ => apply Qlt_alt in H
             | H : Qcompare _ _ = Gt |- _ => apply Qgt_alt in H
             end; lra.
  - pose proof (rne_bounds q1). pose proof (rne_bounds q2). lia.
Qed.

Lemma rne_ge_Z (z : Z) (q : Q) : (inject_Z z <= q)%Q -> (z <= rne q)%Z.
Proof. intro H. rewrite <- (rne_Z z). now apply rne_mono. Qed.

Lemma rne_le_Z (z : Z) (q : Q) : (q <= inject_Z z)%Q -> (rne q <= z)%Z.
Proof. intro H. rewrite <- (rne_Z z). now apply rne_mono. Qed.

(** ** Rounding a positive number to the format *)

Section Nearest.

Variables prec emin : Z.
Hypothesis prec_pos : (1 <= prec)%Z.

Lemma exponent_mono (q1 q2 : Q) :
  (0 < q1)%Q -> (q1 <= q2)%Q ->
  (exponent prec emin q1 <= exponent prec emin q2)%Z.
Proof.
  intros H1 H12. unfold exponent.
  pose proof (ilog2_mono q1 q2 H1 H12). lia.
Qed.

Lemma scaled_le (q : Q) (z k : Z) :
  (q <= inject_Z z * pow2 k)%Q -> (q / pow2 k <= inject_Z z)%Q.
Proof.
  intro H. apply Qle_shift_div_r; [apply pow2_pos|exact H].
Qed.

Lemma scaled_ge (q : Q) (z k : Z) :
  (inject_Z z * pow2 k <= q)%Q -> (inject_Z z <= q / pow2 k)%Q.
Proof.
  intro H. apply Qle_shift_div_l; [apply pow2_pos|exact H].
Qed.

Lemma nearest_le_grid (q : Q) (z : Z) :
  (q <= inject_Z z * pow2 (exponent prec emin q))%Q ->
  (nearest prec emin q <= inject_Z z * pow2 (exponent prec emin q))%Q.
Proof.
  intro H. unfold nearest.
  apply Qmult_le_compat_r; [|apply Qlt_le_weak, pow2_pos].
  rewrite <- Zle_Qle. apply rne_le_Z. now apply scaled_le.
Qed.

Lemma nearest_ge_grid (q : Q) (z : Z) :
  (inject_Z z * pow2 (exponent prec emin q) <= q)%Q ->
  (inject_Z z * pow2 (exponent prec emin q) <= nearest prec emin q)%Q.
Proof.
  intro H. unfold nearest.
  apply Qmult_le_compat_r; [|apply Qlt_le_weak, pow2_pos].
  rewrite <- Zle_Qle. apply rne_ge_Z. now apply scaled_ge.
Qed.

Lemma nearest_nonneg (q : Q) : (0 <= q)%Q -> (0 <= nearest prec emin q)%Q.
Proof.
  intro H.
  setoid_replace 0%Q with (inject_Z 0 * pow2 (exponent prec emin q))%Q by ring.
  apply nearest_ge_grid.
  setoid_replace (inject_Z 0 * pow2 (exponent prec emin q))%Q with 0%Q by ring.
  exact H.
Qed.

(** The rounded value does not pass the next power of two. *)
Lemma nearest_le_pow (q : Q) :
  (0 < q)%Q ->
  (nearest prec emin q <= pow2 (exponent prec emin q + prec))%Q.
Proof.
  intro Hq.
  assert (Hgrid : (pow2 (exponent prec emin q + prec) ==
                   inject_Z (2 ^ prec) * pow2 (exponent prec emin q))%Q).
  { rewrite <- (pow2_Z prec) by lia. rewrite <- pow2_add.
    now rewrite Z.add_comm. }
  rewrite Hgrid. apply nearest_le_grid. rewrite <- Hgrid.
  destruct (ilog2_spec q Hq) as [_ Hh].
  apply Qlt_le_weak. eapply Qlt_le_trans; [exact Hh|].
  apply pow2_le. unfold exponent. lia.
Qed.

(** Above the subnormal range the rounded value keeps the leading bit. *)
Lemma nearest_ge_pow (q : Q) :
  (0 < q)%Q -> (emin < exponent prec emin q)%Z ->
  (pow2 (exponent prec emin q + prec - 1) <= nearest prec emin q)%Q.
Proof.
  intros Hq Hnormal.
  assert (Hgrid : (pow2 (exponent prec emin q + prec - 1) ==
                   inject_Z (2 ^ (prec - 1)) * pow2 (exponent prec emin q))%Q).
  { rewrite <- (pow2_Z (prec - 1)) by lia. rewrite <- pow2_add.
    replace (prec - 1 + exponent prec emin q)%Z
      with (exponent prec emin q + prec - 1)%Z by lia.
    reflexivity. }
  rewrite Hgrid. apply nearest_ge_grid. rewrite <- Hgrid.
  destruct (ilog2_spec q Hq) as [Hl _].
  eapply Qle_trans; [|exact Hl].
  apply pow2_le. unfold exponent in *. lia.
Qed.

Lemma nearest_mono (q1 q2 : Q) :
  (0 < q1)%Q -> (q1 <= q2)%Q ->
  (nearest prec emin q1 <= nearest prec emin q2)%Q.
Proof.
  intros H1 H12.
  assert (H2 : (0 < q2)%Q) by (eapply Qlt_le_trans; eassumption).
  pose proof (exponent_mono q1 q2 H1 H12) as He.
  destruct (Z.eq_dec (exponent prec emin q1) (exponent prec emin q2))
    as [Heq|Hne].
  - unfold nearest. rewrite Heq.
    apply Qmult_le_compat_r; [|apply Qlt_le_weak, pow2_pos].
    rewrite <- Zle_Qle. apply rne_mono.
    apply Qmult_le_compat_r; [exact H12|].
    apply Qlt_le_weak, Qinv_lt_0_compat, pow2_pos.
  - eapply Qle_trans; [apply nearest_le_pow; exact H1|].
    eapply Qle_trans; [|apply nearest_ge_pow; [exact H2|]].
    + apply pow2_le. lia.
    + unfold exponent in *. lia.
Qed.

(** A number that fits the format is not changed. *)
Lemma nearest_fixed (j k : Z) :
  (0 < j < 2 ^ prec)%Z -> (emin <= k)%Z ->
  (nearest prec emin (inject_Z j * pow2 k) == inject_Z j * pow2 k)%Q.
Proof.
  intros Hj Hk. set (q := (inject_Z j * pow2 k)%Q).
  assert (Hq : (0 < q)%Q).
  { unfold q. apply Qmult_lt_0_compat; [|apply pow2_pos].
    change 0%Q with (inject_Z 0). rewrite <- Zlt_Qlt. lia. }
  assert (Hlt : (q < pow2 (prec + k))%Q).
  { unfold q. rewrite pow2_add. apply Qmult_lt_r; [apply pow2_pos|].
    rewrite (pow2_Z prec) by lia. rewrite <- Zlt_Qlt. lia. }
  destruct (ilog2_spec q Hq) as [Hl _].
  assert (Hlog : (ilog2 q < prec + k)%Z)
    by (apply pow2_lt_inv; eapply Qle_lt_trans; eassumption).
  assert (He : (exponent prec emin q <= k)%Z) by (unfold exponent; lia).
  set (ex := exponent prec emin q) in *.
  assert (Hscaled : (q / pow2 ex == inject_Z (j * 2 ^ (k - ex)))%Q).
  { unfold q. rewrite inject_Z_mult, <- (pow2_Z (k - ex)) by lia.
    replace k with ((k - ex) + ex)%Z at 1 by lia. rewrite pow2_add.
    field. apply Qnot_eq_sym, Qlt_not_eq, pow2_pos. }
  unfold nearest. fold ex. rewrite (rne_comp _ _ Hscaled), rne_Z.
  rewrite inject_Z_mult, <- (pow2_Z (k - ex)) by lia.
  unfold q. replace k with ((k - ex) + ex)%Z at 2 by lia.
  rewrite pow2_add. ring.
Qed.


Lemma ilog2_comp (q q' : Q) : (0 < q)%Q -> (q == q')%Q -> ilog2 q = ilog2 q'.
Proof.
  intros Hq Heq. symmetry. apply ilog2_unique.
  - rewrite <- Heq. apply (ilog2_spec q Hq).
  - rewrite <- Heq. apply (ilog2_spec q Hq).
Qed.

Lemma nearest_comp (q q' : Q) :
  (0 < q)%Q -> (q == q')%Q ->
  (nearest prec emin q == nearest prec emin q')%Q.
Proof.
  intros Hq Heq. unfold nearest, exponent.
  rewrite <- (ilog2_comp q q' Hq Heq).
  set (ex := Z.max (ilog2 q - (prec - 1)) emin).
  assert (Hs : (q / pow2 ex == q' / pow2 ex)%Q) by now rewrite Heq.
  now rewrite (rne_comp _ _ Hs).
Qed.

(** ** Rounding any number *)

Variable emax : Z.

Lemma round_float_zero (q : Q) :
  (q == 0)%Q -> round_float prec emin emax q = Fin 0.
Proof.
  intro H. unfold round_float.
  now rewrite (proj2 (Qeq_bool_iff q 0) H).
Qed.

Lemma Qeq_bool_false (q : Q) : ~ (q == 0)%Q -> Qeq_bool q 0 = false.
Proof.
  intro H. destruct (Qeq_bool q 0) eqn:E; [|reflexivity].
  apply Qeq_bool_iff in E. contradiction.
Qed.

Lemma round_float_pos (q : Q) :
  (0 < q)%Q ->
  round_float prec emin emax q =
  if Qle_bool (pow2 emax) (nearest prec emin (Qabs q))
  then Inf false else Fin (Qred (nearest prec emin (Qabs q))).
Proof.
  intro Hq. unfold round_float.
  rewrite Qeq_bool_false by (apply Qnot_eq_sym, Qlt_not_eq; exact Hq).
  assert (Hs : (Qnum q <? 0)%Z = false).
  { apply Z.ltb_ge. unfold Qlt in Hq. cbn in Hq. lia. }
  now rewrite Hs.
Qed.

Lemma round_float_neg (q : Q) :
  (q < 0)%Q ->
  round_float prec emin emax q =
  if Qle_bool (pow2 emax) (nearest prec emin (Qabs q))
  then Inf true else Fin (Qred (- nearest prec emin (Qabs q))).
Proof.
  intro Hq. unfold round_float.
  rewrite Qeq_bool_false by (apply Qlt_not_eq; exact Hq).
  assert (Hs : (Qnum q <? 0)%Z = true).
  { apply Z.ltb_lt. unfold Qlt in Hq. cbn in Hq. lia. }
  now rewrite Hs.
Qed.

(** The finite results, by the sign of the argument. *)
Lemma round_float_Fin (q f : Q) :
  round_float prec emin emax q = Fin f ->
  ((q == 0)%Q /\ (f == 0)%Q) \/
  ((0 < q)%Q /\ (f == nearest prec emin q)%Q /\
   (nearest prec emin q < pow2 emax)%Q) \/
  ((q < 0)%Q /\ (f == - nearest prec emin (- q))%Q /\
   (nearest prec emin (- q) < pow2 emax)%Q).
Proof.
  intro H. destruct (Q_dec q 0) as [[Hneg|Hpos]|Hzero].
  - right. right. split; [exact Hneg|].
    rewrite (round_float_neg q Hneg) in H.
    assert (Habs : (Qabs q == - q)%Q) by (apply Qabs_neg; lra).
    assert (Hn : (nearest prec emin (Qabs q) == nearest prec emin (- q))%Q).
    { apply nearest_comp; [|exact Habs]. rewrite Habs. lra. }
    destruct (Qle_bool (pow2 emax) (nearest prec emin (Qabs q))) eqn:E;
      [discriminate|].
    apply Fin_inj in H. rename H into Hf. split.
    + rewrite <- Hf. eapply Qeq_trans; [apply Qred_correct|].
      now rewrite Hn.
    + rewrite <- Hn. apply Qnot_le_lt. intro Hle.
      apply Qle_bool_iff in Hle. congruence.
  - right. left. split; [exact Hpos|].
    rewrite (round_float_pos q Hpos) in H.
    assert (Habs : (Qabs q == q)%Q) by (apply Qabs_pos; lra).
    assert (Hn : (nearest prec emin (Qabs q) == nearest prec emin q)%Q).
    { apply nearest_comp; [|exact Habs]. rewrite Habs. exact Hpos. }
    destruct (Qle_bool (pow2 emax) (nearest prec emin (Qabs q))) eqn:E;
      [discriminate|].
    apply Fin_inj in H. rename H into Hf. split.
    + rewrite <- Hf. eapply Qeq_trans; [apply Qred_correct|].
      now rewrite Hn.
    + rewrite <- Hn. apply Qnot_le_lt. intro Hle.
      apply Qle_bool_iff in Hle. congruence.
  - left. split; [exact Hzero|].
    rewrite (round_float_zero q Hzero) in H. inversion H. reflexivity.
Qed.

(** Rounding is monotone. *)
Theorem round_float_mono (q1 q2 f1 f2 : Q) :
  (q1 <= q2)%Q ->
  round_float prec emin emax q1 = Fin f1 ->
  round_float prec emin emax q2 = Fin f2 ->
  (f1 <= f2)%Q.
Proof.
  intros H12 H1 H2.
  destruct (round_float_Fin q1 f1 H1)
    as [[Hz1 Hf1]|[[Hp1 [Hf1 _]]|[Hn1 [Hf1 _]]]];
    destruct (round_float_Fin q2 f2 H2)
      as [[Hz2 Hf2]|[[Hp2 [Hf2 _]]|[Hn2 [Hf2 _]]]];
    rewrite Hf1, Hf2; try lra.
  - apply nearest_nonneg. lra.
  - now apply nearest_mono.
  - assert (0 <= nearest prec emin (- q1))%Q by (apply nearest_nonneg; lra).
    lra.
  - assert (0 <= nearest prec emin (- q1))%Q by (apply nearest_nonneg; lra).
    assert (0 <= nearest prec emin q2)%Q by (apply nearest_nonneg; lra).
    lra.
  - assert (nearest prec emin (- q2) <= nearest prec emin (- q1))%Q
      by (apply nearest_mono; lra).
    lra.
Qed.

(** A number that fits the format is its own rounding. *)
Theorem round_float_fixed (j k : Z) :
  (Z.abs j < 2 ^ prec)%Z -> (emin <= k)%Z ->
  (inject_Z (Z.abs j) * pow2 k < pow2 emax)%Q ->
  exists f, round_float prec emin emax (inject_Z j * pow2 k) = Fin f /\
            (f == inject_Z j * pow2 k)%Q.
Proof.
  intros Hj Hk Hmax.
  pose proof (pow2_pos k) as Hpow.
  destruct (Z.lt_trichotomy j 0) as [Hneg|[Hzero|Hpos]].
  - assert (Hq : (inject_Z j * pow2 k < 0)%Q).
    { setoid_replace (inject_Z j * pow2 k)%Q
        with (- (inject_Z (- j) * pow2 k))%Q by (rewrite inject_Z_opp; ring).
      assert (0 < inject_Z (- j) * pow2 k)%Q.
      { apply Qmult_lt_0_compat; [|exact Hpow].
        change 0%Q with (inject_Z 0). rewrite <- Zlt_Qlt. lia. }
      lra. }
    assert (Hp : (0 < inject_Z (- j) * pow2 k)%Q).
    { apply Qmult_lt_0_compat; [|exact Hpow].
      change 0%Q with (inject_Z 0). rewrite <- Zlt_Qlt. lia. }
    rewrite (round_float_neg _ Hq).
    assert (Habs : (Qabs (inject_Z j * pow2 k) == inject_Z (- j) * pow2 k)%Q).
    { rewrite Qabs_neg by lra. rewrite inject_Z_opp. ring. }
    assert (Hn : (nearest prec emin (Qabs (inject_Z j * pow2 k)) ==
                  inject_Z (- j) * pow2 k)%Q).
    { eapply Qeq_trans; [apply nearest_comp; [|exact Habs]|].
      - rewrite Habs. exact Hp.
      - apply nearest_fixed; lia. }
    replace (Z.abs j) with (- j)%Z in Hmax by lia.
    destruct (Qle_bool (pow2 emax)
                (nearest prec emin (Qabs (inject_Z j * pow2 k)))) eqn:E.
    + apply Qle_bool_iff in E. rewrite Hn in E. lra.
    + eexists. split; [reflexivity|].
      eapply Qeq_trans; [apply Qred_correct|].
      rewrite Hn, inject_Z_opp. ring.
  - subst j. rewrite round_float_zero by ring.
    exists 0%Q. split; [reflexivity|ring].
  - assert (Hq : (0 < inject_Z j * pow2 k)%Q).
    { apply Qmult_lt_0_compat; [|exact Hpow].
      change 0%Q with (inject_Z 0). rewrite <- Zlt_Qlt. lia. }
    rewrite (round_float_pos _ Hq).
    assert (Habs : (Qabs (inject_Z j * pow2 k) == inject_Z j * pow2 k)%Q)
      by (apply Qabs_pos; lra).
    assert (Hn : (nearest prec emin (Qabs (inject_Z j * pow2 k)) ==
                  inject_Z j * pow2 k)%Q).
    { eapply Qeq_trans; [apply nearest_comp; [|exact Habs]|].
      - rewrite Habs. exact Hq.
      - apply nearest_fixed; lia. }
    replace (Z.abs j) with j in Hmax by lia.
    destruct (Qle_bool (pow2 emax)
                (nearest prec emin (Qabs (inject_Z j * pow2 k)))) eqn:E.
    + apply Qle_bool_iff in E. rewrite Hn in E. lra.
    + eexists. split; [reflexivity|].
      eapply Qeq_trans; [apply Qred_correct|]. exact Hn.
Qed.

(** A number within the range of the format has a finite rounding. *)
Theorem round_float_finite (q : Q) (j k : Z) :
  (0 < j < 2 ^ prec)%Z -> (emin <= k)%Z ->
  (inject_Z j * pow2 k < pow2 emax)%Q ->
  (Qabs q <= inject_Z j * pow2 k)%Q ->
  exists f, round_float prec emin emax q = Fin f.
Proof.
  intros Hj Hk Hmax Hq.
  assert (Hbound : forall p, (0 < p)%Q -> (p <= inject_Z j * pow2 k)%Q ->
            Qle_bool (pow2 emax) (nearest prec emin p) = false).
  { intros p Hp Hle.
    destruct (Qle_bool (pow2 emax) (nearest prec emin p)) eqn:E;
      [|reflexivity].
    apply Qle_bool_iff in E.
    pose proof (nearest_mono p _ Hp Hle) as Hm.
    rewrite nearest_fixed in Hm by assumption. lra. }
  destruct (Q_dec q 0) as [[Hneg|Hpos]|Hzero].
  - rewrite (round_float_neg q Hneg).
    rewrite Hbound; [eexists; reflexivity| |exact Hq].
    rewrite Qabs_neg by lra. lra.
  - rewrite (round_float_pos q Hpos).
    rewrite Hbound; [eexists; reflexivity| |exact Hq].
    rewrite Qabs_pos by lra. exact Hpos.
  - rewrite (round_float_zero q Hzero). eexists. reflexivity.
Qed.

End Nearest.

End Rounding.

Set Implicit Arguments.

(** ** binary64 quotients of small integers *)

Lemma binary64_mono (q1 q2 f1 f2 : Q) :
  (q1 <= q2)%Q ->
  Fp.binary64 q1 = Fp.Fin f1 -> Fp.binary64 q2 = Fp.Fin f2 ->
  (f1 <= f2)%Q.
Proof.
  apply (Rounding.round_float_mono 53 (-1074) ltac:(lia) 1024).
Qed.

Lemma float32_mono (q1 q2 f1 f2 : Q) :
  (q1 <= q2)%Q ->
  Fp.float32 q1 = Fp.Fin f1 -> Fp.float32 q2 = Fp.Fin f2 ->
  (f1 <= f2)%Q.
Proof.
  apply (Rounding.round_float_mono 24 (-149) ltac:(lia) 128).
Qed.

(** Every multiple of 1/32 up to 2^48 in magnitude is a binary64. *)
Lemma binary64_thirty_seconds (j : Z) :
  (Z.abs j < 2 ^ 53)%Z ->
  exists f, Fp.binary64 (inject_Z j * Fp.pow2 (-5)) = Fp.Fin f /\
            (f == inject_Z j * (1 # 32))%Q.
Proof.
  intro Hj.
  destruct (Rounding.round_float_fixed 53 (-1074) ltac:(lia) 1024 j (-5))
    as [f [Hf Heq]]; [exact Hj|lia| |].
  - apply Qlt_trans with (Fp.pow2 53 * Fp.pow2 (-5))%Q.
    + apply Qmult_lt_r; [apply Rounding.pow2_pos|].
      rewrite (Rounding.pow2_Z 53) by lia. rewrite <- Zlt_Qlt. exact Hj.
    + vm_compute. reflexivity.
  - exists f. split; [exact Hf|]. rewrite Heq.
    apply Qmult_comp; [reflexivity|]. vm_compute. reflexivity.
Qed.

(** Every number up to 2^47 in magnitude has a finite binary64. *)
Lemma binary64_finite (q : Q) :
  (Qabs q <= inject_Z (2 ^ 47))%Q -> exists f, Fp.binary64 q = Fp.Fin f.
Proof.
  intro H.
  apply (Rounding.round_float_finite 53 (-1074) ltac:(lia) 1024 q 1 47);
    try lia.
  - vm_compute. reflexivity.
  - eapply Qle_trans; [exact H|]. vm_compute. discriminate.
Qed.

(** Two numbers up to 2^47 in magnitude that are 1/16 apart have
    different roundings. *)
Lemma binary64_separates (a b fa fb : Q) :
  (Qabs a <= inject_Z (2 ^ 47))%Q ->
  (a + (1 # 16) <= b)%Q ->
  Fp.binary64 a = Fp.Fin fa -> Fp.binary64 b = Fp.Fin fb ->
  (fa < fb)%Q.
Proof.
  intros Ha Hgap Hfa Hfb.
  set (j := Qceiling (a * 32)).
  assert (Hj1 : (a * 32 <= inject_Z j)%Q) by apply Qle_ceiling.
  assert (Hj2 : (inject_Z j < a * 32 + 1)%Q).
  { pose proof (Qceiling_lt (a * 32)) as H. fold j in H.
    unfold Z.sub in H. rewrite inject_Z_plus in H.
    change (inject_Z (- (1))) with (- (1))%Q in H. lra. }
  assert (Habs : (- inject_Z (2 ^ 47) <= a)%Q /\ (a <= inject_Z (2 ^ 47))%Q).
  { apply Qabs_Qle_condition. exact Ha. }
  destruct Habs as [Hlow Hhigh].
  assert (Hjz : (- 2 ^ 52 <= j <= 2 ^ 52)%Z).
  { split.
    - rewrite Zle_Qle. eapply Qle_trans; [|exact Hj1].
      assert (H : (inject_Z (- 2 ^ 52) == - inject_Z (2 ^ 47) * 32)%Q)
        by (vm_compute; reflexivity).
      rewrite H. lra.
    - unfold j. rewrite <- (Qceiling_Z (2 ^ 52)).
      apply Qceiling_resp_le.
      assert (H : (inject_Z (2 ^ 52) == inject_Z (2 ^ 47) * 32)%Q)
        by (vm_compute; reflexivity).
      rewrite H. lra. }
  destruct (binary64_thirty_seconds j) as [f1 [Hf1 Heq1]]; [lia|].
  destruct (binary64_thirty_seconds (j + 1)) as [f2 [Hf2 Heq2]]; [lia|].
  assert (Hp : (Fp.pow2 (-5) == 1 # 32)%Q) by (vm_compute; reflexivity).
  assert (H1 : (fa <= f1)%Q).
  { apply (@binary64_mono a (inject_Z j * Fp.pow2 (-5)) fa f1);
      try assumption.
    rewrite Hp. lra. }
  assert (H2 : (f2 <= fb)%Q).
  { apply (@binary64_mono (inject_Z (j + 1) * Fp.pow2 (-5)) b f2 fb);
      try assumption.
    rewrite Hp, inject_Z_plus. change (inject_Z 1) with 1%Q. lra. }
  rewrite inject_Z_plus in Heq2. change (inject_Z 1) with 1%Q in Heq2.
  lra.
Qed.

(** ** Means of a few integers *)

Lemma sum_abs_bound (B : Z) (l : list Z) :
  Forall (fun y => (Z.abs y <= B)%Z) l ->
  (Z.abs (fold_right Z.add 0 l) <= Z.of_nat (length l) * B)%Z.
Proof.
  induction 1 as [|y l Hy _ IH]; cbn [fold_right length].
  - simpl. lia.
  - rewrite Nat2Z.inj_succ. lia.
Qed.

Lemma mean_abs_bound (B : Z) (l : list Z) :
  l <> [] ->
  Forall (fun y => (Z.abs y <= B)%Z) l ->
  (Qabs (mean l) <= inject_Z B)%Q.
Proof.
  intros Hne Hall. pose proof (sum_abs_bound Hall) as Hsum.
  unfold mean.
  destruct (Z.of_nat (length l)) as [|n|n] eqn:En.
  - destruct l; [contradiction|discriminate].
  - apply Qabs_Qle_condition.
    unfold Qle, Qdiv, Qmult, Qinv, Qopp, inject_Z. cbn [Qnum Qden].
    split; nia.
  - lia.
Qed.

(** Means with denominators up to 5 and up to 2 differ by at least 1/10
    when they differ. *)
Lemma mean_gap (head shoulder : list Z) :
  (1 <= length head <= 5)%nat -> (1 <= length shoulder <= 2)%nat ->
  (mean head < mean shoulder)%Q ->
  (mean head + (1 # 16) <= mean shoulder)%Q.
Proof.
  intros Hh Hs. unfold mean.
  destruct (Z.of_nat (length head)) as [|n|n] eqn:En; try lia.
  destruct (Z.of_nat (length shoulder)) as [|m|m] eqn:Em; try lia.
  assert (Hn : (Z.pos n <= 5)%Z) by lia.
  assert (Hm : (Z.pos m <= 2)%Z) by lia.
  unfold Qlt, Qle, Qplus, Qdiv, Qmult, Qinv, inject_Z. cbn [Qnum Qden].
  rewrite !Pos2Z.inj_mul. intro Hlt. nia.
Qed.

Lemma above_float32_ys_length (keypoints : list keypoint) (lo n : nat)
    (thr : Q) :
  (length (above_float32_ys keypoints lo n thr) <= n)%nat.
Proof.
  unfold above_float32_ys, slice. rewrite length_map.
  eapply Nat.le_trans; [apply filter_length_le|].
  rewrite length_firstn. lia.
Qed.

(** ** Claim C1 *)

(** C1, as the code has it.  For every list of 17 keypoints and every
    threshold, the classifier collects the y-coordinates of the head
    keypoints (indices 0-4) and of the shoulder keypoints (indices 5-6)
    whose confidence is strictly above the threshold rounded to float32.
    When both collections are non-empty and the two means have finite
    binary64 roundings, the verdict is drowsy exactly when the rounded
    mean of the head is at least the rounded mean of the shoulders; it
    is therefore drowsy whenever the exact mean of the head is at least
    that of the shoulders.  When the collected coordinates are at most
    2^40 in magnitude the verdict is drowsy exactly when the exact mean
    of the head is at least the exact mean of the shoulders. *)
Theorem check_drowsiness_rounded_mean_rule
    (keypoints : list keypoint) (thr : Q) :
  length keypoints = 17%nat ->
  above_float32_ys keypoints 0 5 thr <> [] ->
  above_float32_ys keypoints 5 2 thr <> [] ->
  (forall mean_head mean_shoulder,
     Fp.binary64 (mean (above_float32_ys keypoints 0 5 thr)) =
     Fp.Fin mean_head ->
     Fp.binary64 (mean (above_float32_ys keypoints 5 2 thr)) =
     Fp.Fin mean_shoulder ->
     exists verdict,
       Fp.check_drowsiness keypoints thr = Ok verdict /\
       (verdict = true <-> (mean_shoulder <= mean_head)%Q) /\
       ((mean (above_float32_ys keypoints 5 2 thr) <=
         mean (above_float32_ys keypoints 0 5 thr))%Q -> verdict = true)) /\
  (Forall (fun y => (Z.abs y <= 2 ^ 40)%Z) (above_float32_ys keypoints 0 5 thr) ->
   Forall (fun y => (Z.abs y <= 2 ^ 40)%Z) (above_float32_ys keypoints 5 2 thr) ->
   exists verdict,
     Fp.check_drowsiness keypoints thr = Ok verdict /\
     (verdict = true <->
      (mean (above_float32_ys keypoints 5 2 thr) <=
       mean (above_float32_ys keypoints 0 5 thr))%Q)).
Proof.
  intros Hlen Hhead Hshoulder.
  pose proof (above_float32_ys_length keypoints 0 5 thr) as Hnh.
  pose proof (above_float32_ys_length keypoints 5 2 thr) as Hns.
  rewrite (fp_check_drowsiness_17 keypoints thr Hlen).
  destruct (above_float32_ys keypoints 0 5 thr) as [|h hs]; [congruence|].
  destruct (above_float32_ys keypoints 5 2 thr) as [|s ss]; [congruence|].
  rewrite !fp_truediv_mean.
  assert (Hrule : forall mh ms,
            Fp.binary64 (mean (h :: hs)) = Fp.Fin mh ->
            Fp.binary64 (mean (s :: ss)) = Fp.Fin ms ->
            (avg_head_y <-
               match Fp.binary64 (mean (h :: hs)) with
               | Fp.Fin f => Ok f
               | _ => Raise OverflowError
               end ;;
             avg_shoulder_y <-
               match Fp.binary64 (mean (s :: ss)) with
               | Fp.Fin f => Ok f
               | _ => Raise OverflowError
               end ;;
             Ok (Fp.ge avg_head_y avg_shoulder_y)) =
            Ok (Qle_bool ms mh)).
  { intros mh ms Hmh Hms. rewrite Hmh, Hms. reflexivity. }
  split.
  - intros mh ms Hmh Hms. rewrite (Hrule mh ms Hmh Hms).
    eexists. split; [reflexivity|]. split; [apply Qle_bool_iff|].
    intro Hexact. apply Qle_bool_iff.
    exact (binary64_mono Hexact Hms Hmh).
  - intros Hbh Hbs.
    assert (Hah : (Qabs (mean (h :: hs)) <= inject_Z (2 ^ 47))%Q).
    { eapply Qle_trans; [apply (mean_abs_bound (B := 2 ^ 40));
                         [discriminate|exact Hbh]|].
      rewrite <- Zle_Qle. lia. }
    assert (Has : (Qabs (mean (s :: ss)) <= inject_Z (2 ^ 47))%Q).
    { eapply Qle_trans; [apply (mean_abs_bound (B := 2 ^ 40));
                         [discriminate|exact Hbs]|].
      rewrite <- Zle_Qle. lia. }
    destruct (binary64_finite _ Hah) as [mh Hmh].
    destruct (binary64_finite _ Has) as [ms Hms].
    rewrite (Hrule mh ms Hmh Hms).
    eexists. split; [reflexivity|]. rewrite Qle_bool_iff. split.
    + intro Hrounded.
      destruct (Qlt_le_dec (mean (h :: hs)) (mean (s :: ss))) as [Hlt|Hle];
        [|exact Hle].
      exfalso. apply (Qlt_not_le mh ms); [|exact Hrounded].
      apply (@binary64_separates (mean (h :: hs)) (mean (s :: ss)) mh ms);
        try assumption.
      apply mean_gap; cbn [length] in *; try lia. exact Hlt.
    + intro Hexact. exact (binary64_mono Hexact Hms Hmh).
Qed.

Lemma check_drowsiness_rounded_mean_rule_witness :
  (forall mean_head mean_shoulder,
     Fp.binary64 (mean (above_float32_ys person_at_threshold 0 5 (1 # 8))) =
     Fp.Fin mean_head ->
     Fp.binary64 (mean (above_float32_ys person_at_threshold 5 2 (1 # 8))) =
     Fp.Fin mean_shoulder ->
     exists verdict,
       Fp.check_drowsiness person_at_threshold (1 # 8) = Ok verdict /\
       (verdict = true <-> (mean_shoulder <= mean_head)%Q) /\
       ((mean (above_float32_ys person_at_threshold 5 2 (1 # 8)) <=
         mean (above_float32_ys person_at_threshold 0 5 (1 # 8)))%Q ->
        verdict = true)) /\
  (Forall (fun y => (Z.abs y <= 2 ^ 40)%Z)
     (above_float32_ys person_at_threshold 0 5 (1 # 8)) ->
   Forall (fun y => (Z.abs y <= 2 ^ 40)%Z)
     (above_float32_ys person_at_threshold 5 2 (1 # 8)) ->
   exists verdict,
     Fp.check_drowsiness person_at_threshold (1 # 8) = Ok verdict /\
     (verdict = true <->
      (mean (above_float32_ys person_at_threshold 5 2 (1 # 8)) <=
       mean (above_float32_ys person_at_threshold 0 5 (1 # 8)))%Q)).
Proof.
  apply (@check_drowsiness_rounded_mean_rule person_at_threshold (1 # 8)).
  - reflexivity.
  - vm_compute. discriminate.
  - vm_compute. discriminate.
Defined.

(** C1, as stated, fails in two ways.  The means are rounded: with the
    head at y = 2^53 and the shoulders at 2^53 + 1 the mean of the head
    is below the mean of the shoulders, but both quotients are the
    binary64 2^53 and the verdict is drowsy.  The threshold is rounded:
    head confidences equal to the float32 nearest to 0.2 are strictly
    above the Python float 0.2, the head at y = 300 is below the
    shoulders at 280, but no head keypoint is collected and the verdict
    is normal. *)
Lemma float_rounding_breaks_the_mean_rule :
  Fp.check_drowsiness person_far (1 # 4) = Ok true /\
  confident_ys person_far 0 5 (1 # 4) = repeat (2 ^ 53)%Z 5 /\
  confident_ys person_far 5 2 (1 # 4) = repeat (2 ^ 53 + 1)%Z 2 /\
  ~ (mean (repeat (2 ^ 53 + 1)%Z 2) <= mean (repeat (2 ^ 53)%Z 5))%Q /\
  Fp.check_drowsiness person_at_threshold python_0_2 = Ok false /\
  confident_ys person_at_threshold 0 5 python_0_2 = repeat 300%Z 5 /\
  confident_ys person_at_threshold 5 2 python_0_2 = repeat 280%Z 2 /\
  (mean (repeat 280%Z 2) <= mean (repeat 300%Z 5))%Q.
Proof.
  split; [vm_compute; reflexivity|].
  split; [vm_compute; reflexivity|].
  split; [vm_compute; reflexivity|].
  split; [vm_compute; intro H; apply H; reflexivity|].
  split; [vm_compute; reflexivity|].
  split; [vm_compute; reflexivity|].
  split; [vm_compute; reflexivity|].
  vm_compute. discriminate.
Qed.

(** ** Claim C5 *)

Lemma fp_keypoints_loop_ok (d : detection) (scale_x scale_y : Q)
    (kpt_idxs : list nat) :
  forall keypoints,
    Forall (fun k => (6 + k * 3 + 3 <= length d)%nat /\
                     finite_products d scale_x scale_y k) kpt_idxs ->
    Fp.keypoints_loop d scale_x scale_y kpt_idxs keypoints =
    Ok (keypoints ++
        map (float32_scaled_keypoint d scale_x scale_y) kpt_idxs).
Proof.
  induction kpt_idxs as [|k rest IH]; intros keypoints Hall;
    cbn [Fp.keypoints_loop map].
  - now rewrite app_nil_r.
  - inversion Hall as [|? ? [Hk [px [py [Hpx Hpy]]]] Hrest]; subst.
    rewrite (slice_triple d (6 + k * 3) Hk). cbn [unpack3 bind].
    rewrite Hpx, Hpy. cbn [Fp.int bind].
    rewrite IH by assumption.
    rewrite <- app_assoc. unfold float32_scaled_keypoint.
    now rewrite Hpx, Hpy.
Qed.

(** C5, as the code has it.  The scaling of the box corners and of the
    keypoints computes [int(x * scale_x)] and [int(y * scale_y)], where
    the product is the float32 product of the coordinate and the scale
    factor rounded to float32: the result is that product with its
    fractional part dropped (rounding toward zero), not the nearest
    integer; when the product overflows to an infinity, [int] raises
    OverflowError. *)
Theorem scaling_truncates_the_float32_product
    (x1 y1 x2 y2 scale_x scale_y : Q) (d : detection) :
  (forall p1 p2 p3 p4,
     Fp.mul x1 scale_x = Fp.Fin p1 -> Fp.mul y1 scale_y = Fp.Fin p2 ->
     Fp.mul x2 scale_x = Fp.Fin p3 -> Fp.mul y2 scale_y = Fp.Fin p4 ->
     exists x1' y1' x2' y2',
       Fp.scale_box x1 y1 x2 y2 scale_x scale_y = Ok (x1', y1', x2', y2') /\
       truncation p1 x1' /\ truncation p2 y1' /\
       truncation p3 x2' /\ truncation p4 y2') /\
  (forall negative,
     Fp.mul x1 scale_x = Fp.Inf negative ->
     Fp.scale_box x1 y1 x2 y2 scale_x scale_y = Raise OverflowError) /\
  ((57 <= length d)%nat ->
   (forall k, (k < 17)%nat -> finite_products d scale_x scale_y k) ->
   exists keypoints,
     Fp.keypoints_loop d scale_x scale_y (range 17) [] = Ok keypoints /\
     forall k, (k < 17)%nat ->
       exists kx_scaled ky_scaled kp_conf px py,
         nth_error keypoints k = Some (kx_scaled, ky_scaled, kp_conf) /\
         Fp.mul (nth (6 + k * 3) d 0) scale_x = Fp.Fin px /\
         Fp.mul (nth (6 + k * 3 + 1) d 0) scale_y = Fp.Fin py /\
         truncation px kx_scaled /\ truncation py ky_scaled /\
         kp_conf = nth (6 + k * 3 + 2) d 0).
Proof.
  split; [|split].
  - intros p1 p2 p3 p4 H1 H2 H3 H4. unfold Fp.scale_box.
    rewrite H1, H2, H3, H4. cbn [Fp.int bind].
    do 4 eexists. split; [reflexivity|].
    repeat split; apply int_truncation.
  - intros negative H. unfold Fp.scale_box. rewrite H. reflexivity.
  - intros Hlen Hfinite.
    exists (map (float32_scaled_keypoint d scale_x scale_y) (range 17)).
    split.
    + rewrite fp_keypoints_loop_ok; [reflexivity|].
      apply Forall_forall. intros k Hk. apply in_seq in Hk.
      split; [lia|]. apply Hfinite. lia.
    + intros k Hk. destruct (Hfinite k Hk) as [px [py [Hpx Hpy]]].
      exists (int_ px), (int_ py), (nth (6 + k * 3 + 2) d 0%Q), px, py.
      split.
      * unfold range. rewrite nth_error_map, nth_error_seq.
        destruct (Nat.ltb_spec k 17) as [_|Hge]; [|lia].
        cbn [option_map Nat.add]. unfold float32_scaled_keypoint.
        now rewrite Hpx, Hpy.
      * repeat split; try assumption; apply int_truncation.
Qed.

Lemma scaling_truncates_the_float32_product_witness :
  exists x1' y1' x2' y2',
    Fp.scale_box 60 60 60 60 python_1_05 python_1_05 =
    Ok (x1', y1', x2', y2') /\
    truncation (16515071 # 262144) x1' /\ truncation (16515071 # 262144) y1' /\
    truncation (16515071 # 262144) x2' /\ truncation (16515071 # 262144) y2'.
Proof.
  apply (proj1 (@scaling_truncates_the_float32_product
                  60 60 60 60 python_1_05 python_1_05 []));
    vm_compute; reflexivity.
Defined.

(** ** The input tensor *)

Lemma float32_unit_interval (q : Q) :
  (0 <= q)%Q -> (q <= 1)%Q ->
  exists f, Fp.float32 q = Fp.Fin f /\ (0 <= f)%Q /\ (f <= 1)%Q.
Proof.
  intros H0 H1.
  destruct (Rounding.round_float_finite 24 (-149) ltac:(lia) 128 q 1 0)
    as [f Hf]; try lia.
  - vm_compute. reflexivity.
  - rewrite Qabs_pos by exact H0.
    eapply Qle_trans; [exact H1|]. vm_compute. discriminate.
  - exists f. split; [exact Hf|]. split.
    + apply (@float32_mono 0 q 0 f H0); [vm_compute; reflexivity|exact Hf].
    + apply (@float32_mono q 1 f 1 H1); [exact Hf|vm_compute; reflexivity].
Qed.

(** X23.  The tensor given to the model: for a resized image of shape
    [height, width, 3] with entries from 0 to 255, [input_data] has
    shape [1, 3, height, width], every entry is a finite float32 between
    0 and 1, and the entry at [0][c][i][j] is the float32 nearest to the
    channel c of the pixel in row i and column j, divided by 255. *)
Theorem input_data_shape_and_range
    (height width : nat) (img_resized : pixels) :
  uint8_image height width img_resized ->
  exists planes,
    input_data_of img_resized = [planes] /\
    length planes = 3%nat /\
    Forall (fun plane =>
              length plane = height /\
              Forall (fun row =>
                        length row = width /\
                        Forall (fun e => exists f,
                                  e = Fp.Fin f /\ (0 <= f)%Q /\ (f <= 1)%Q)
                          row)
                plane) planes /\
    forall c i j, (c < 3)%nat -> (i < height)%nat -> (j < width)%nat ->
      nth j (nth i (nth c planes []) []) (Fp.Fin 0) =
      Fp.float32 (inject_Z (nth c (nth j (nth i img_resized []) []) 0%Z) / 255).
Proof.
  intros [Hheight Hrows].
  eexists. split; [reflexivity|]. split; [reflexivity|]. split.
  - unfold transpose_2_0_1, range. cbn [seq map].
    repeat (apply Forall_cons; [|]); try apply Forall_nil;
      (split; [now rewrite !length_map|]);
      rewrite map_map; apply Forall_map;
      (eapply Forall_impl; [|exact Hrows]); cbv beta;
      intros row [Hwidth Hpx];
      (split; [now rewrite !length_map|]);
      rewrite map_map; apply Forall_map;
      (eapply Forall_impl; [|exact Hpx]); cbv beta;
      intros px [Hlen Hv];
      (apply float32_unit_interval; apply normalised_in_unit_interval);
      destruct px as [|r [|g [|b [|? ?]]]]; try discriminate;
      inversion Hv as [|? ? Hr Hv1]; subst;
      inversion Hv1 as [|? ? Hg Hv2]; subst;
      inversion Hv2 as [|? ? Hb _]; subst; assumption.
  - intros c i j Hc Hi Hj.
    assert (Hplane :
              nth c (map (map (map (fun v => Fp.float32 (inject_Z v / 255))))
                       (transpose_2_0_1 img_resized)) [] =
              map (map (fun px => Fp.float32 (inject_Z (nth c px 0%Z) / 255)))
                img_resized).
    { unfold transpose_2_0_1, range. cbn [seq map].
      destruct c as [|[|[|c]]]; try lia; cbn [nth];
        rewrite map_map; apply map_ext; intro row; now rewrite map_map. }
    rewrite Hplane.
    rewrite (@nth_map_lt _ _ _ img_resized i [] []) by lia.
    assert (Hrow : length (nth i img_resized []) = width).
    { pose proof (proj1 (Forall_forall _ _) Hrows (nth i img_resized [])) as H.
      apply H. apply nth_In. lia. }
    now rewrite (@nth_map_lt _ _ _ (nth i img_resized []) j (Fp.Fin 0) [])
      by lia.
Qed.

Lemma input_data_shape_and_range_witness :
  exists planes,
    input_data_of [[[255; 51; 10]; [1; 2; 3]]%Z] = [planes] /\
    length planes = 3%nat /\
    Forall (fun plane =>
              length plane = 1%nat /\
              Forall (fun row =>
                        length row = 2%nat /\
                        Forall (fun e => exists f,
                                  e = Fp.Fin f /\ (0 <= f)%Q /\ (f <= 1)%Q)
                          row)
                plane) planes /\
    forall c i j, (c < 3)%nat -> (i < 1)%nat -> (j < 2)%nat ->
      nth j (nth i (nth c planes []) []) (Fp.Fin 0) =
      Fp.float32
        (inject_Z
           (nth c (nth j (nth i [[[255; 51; 10]; [1; 2; 3]]%Z] []) []) 0%Z) /
         255).
Proof.
  apply (@input_data_shape_and_range 1 2 [[[255; 51; 10]; [1; 2; 3]]%Z]).
  split; [reflexivity|].
  repeat constructor; lia.
Defined.

(** The entry for the pixel value 51 is the float32 nearest to 0.2, not
    1/5. *)
Example input_data_of_51 :
  input_data_of [[[51; 0; 255]%Z]] =
  [[[[Fp.Fin float32_0_2]]; [[Fp.Fin 0]]; [[Fp.Fin 1]]]].
Proof. vm_compute. reflexivity. Qed.

(** ** The classifier on coordinates of ordinary size *)

Lemma Qle_bool_mean_cross (h : Z) (hs : list Z) (s : Z) (ss : list Z) :
  Qle_bool (mean (s :: ss)) (mean (h :: hs)) =
  cross_rule (h :: hs) (s :: ss).
Proof.
  unfold cross_rule, mean. cbn [length Nat.eqb negb andb].
  rewrite !Nat2Z.inj_succ.
  destruct (Z.succ (Z.of_nat (length hs))) as [|n|n] eqn:En; try lia.
  destruct (Z.succ (Z.of_nat (length ss))) as [|m|m] eqn:Em; try lia.
  apply (ge_truediv_cross (fold_right Z.add 0%Z (h :: hs))
           (fold_right Z.add 0%Z (s :: ss)) n m).
Qed.

(** With coordinates up to 2^40 the roundings do not show: the verdict
    is the division-free rule on the two collections. *)
Lemma fp_check_drowsiness_bounded (keypoints : list keypoint) (thr : Q) :
  length keypoints = 17%nat ->
  Forall (fun y => (Z.abs y <= 2 ^ 40)%Z) (above_float32_ys keypoints 0 5 thr) ->
  Forall (fun y => (Z.abs y <= 2 ^ 40)%Z) (above_float32_ys keypoints 5 2 thr) ->
  Fp.check_drowsiness keypoints thr =
  Ok (cross_rule (above_float32_ys keypoints 0 5 thr)
        (above_float32_ys keypoints 5 2 thr)).
Proof.
  intros Hlen Hbh Hbs.
  pose proof (above_float32_ys_length keypoints 0 5 thr) as Hnh.
  pose proof (above_float32_ys_length keypoints 5 2 thr) as Hns.
  rewrite (fp_check_drowsiness_17 keypoints thr Hlen).
  destruct (above_float32_ys keypoints 0 5 thr) as [|h hs]; [reflexivity|].
  destruct (above_float32_ys keypoints 5 2 thr) as [|s ss]; [reflexivity|].
  rewrite !fp_truediv_mean.
  assert (Hah : (Qabs (mean (h :: hs)) <= inject_Z (2 ^ 47))%Q).
  { eapply Qle_trans; [apply (mean_abs_bound (B := 2 ^ 40));
                       [discriminate|exact Hbh]|].
    rewrite <- Zle_Qle. lia. }
  assert (Has : (Qabs (mean (s :: ss)) <= inject_Z (2 ^ 47))%Q).
  { eapply Qle_trans; [apply (mean_abs_bound (B := 2 ^ 40));
                       [discriminate|exact Hbs]|].
    rewrite <- Zle_Qle. lia. }
  destruct (binary64_finite _ Hah) as [mh Hmh].
  destruct (binary64_finite _ Has) as [ms Hms].
  rewrite Hmh, Hms. cbn [bind]. unfold Fp.ge. f_equal.
  rewrite <- Qle_bool_mean_cross. apply bool_eq_iff.
  rewrite !Qle_bool_iff. split.
  - intro Hrounded.
    destruct (Qlt_le_dec (mean (h :: hs)) (mean (s :: ss))) as [Hlt|Hle];
      [|exact Hle].
    exfalso. apply (Qlt_not_le mh ms); [|exact Hrounded].
    apply (@binary64_separates (mean (h :: hs)) (mean (s :: ss)) mh ms);
      try assumption.
    apply mean_gap; cbn [length] in *; try lia. exact Hlt.
  - intro Hexact. exact (binary64_mono Hexact Hms Hmh).
Qed.

Lemma slice_In {A : Type} (l : list A) (lo hi : nat) (x : A) :
  In x (slice l lo hi) -> In x l.
Proof.
  unfold slice. intro H.
  rewrite <- (firstn_skipn lo l). apply in_or_app. right.
  rewrite <- (firstn_skipn (hi - lo) (skipn lo l)). apply in_or_app.
  now left.
Qed.

Lemma above_float32_ys_within (B : Z) (keypoints : list keypoint)
    (lo n : nat) (thr : Q) :
  heights_within B keypoints ->
  Forall (fun y => (Z.abs y <= B)%Z) (above_float32_ys keypoints lo n thr).
Proof.
  intro Hall. apply Forall_forall. intros y Hy.
  unfold above_float32_ys in Hy. apply in_map_iff in Hy.
  destruct Hy as [k [Hk Hin]]. subst y.
  apply filter_In in Hin. destruct Hin as [Hin _]. apply slice_In in Hin.
  exact (proj1 (Forall_forall _ _) Hall k Hin).
Qed.

Lemma filter_above_float32_map (g : keypoint -> keypoint) (thr : Q)
    (l : list keypoint) :
  (forall k, snd (g k) = snd k) ->
  filter (above_float32 thr) (map g l) = map g (filter (above_float32 thr) l).
Proof.
  intro Hconf. induction l as [|k l IH]; [reflexivity|].
  cbn [map filter].
  rewrite <- (fp_gt_above thr (g k)), <- (fp_gt_above thr k), Hconf, IH.
  destruct (Fp.gt (snd k) thr); reflexivity.
Qed.

Lemma above_float32_ys_map (g : keypoint -> keypoint) (h : Z -> Z) (thr : Q)
    (keypoints : list keypoint) (lo n : nat) :
  (forall k, snd (g k) = snd k) ->
  (forall k, snd (fst (g k)) = h (snd (fst k))) ->
  above_float32_ys (map g keypoints) lo n thr =
  map h (above_float32_ys keypoints lo n thr).
Proof.
  intros Hconf Hy. unfold above_float32_ys.
  rewrite slice_map, filter_above_float32_map by assumption.
  rewrite !map_map. apply map_ext. intro k. apply Hy.
Qed.

Lemma sum_map_add (dy : Z) (l : list Z) :
  fold_right Z.add 0%Z (map (fun y => y + dy)%Z l) =
  (fold_right Z.add 0 l + dy * Z.of_nat (length l))%Z.
Proof.
  induction l as [|y l IH]; [cbn; lia|].
  cbn [map fold_right length]. rewrite IH, Nat2Z.inj_succ. lia.
Qed.

Lemma sum_map_mul (c : Z) (l : list Z) :
  fold_right Z.add 0%Z (map (fun y => y * c)%Z l) =
  (c * fold_right Z.add 0 l)%Z.
Proof.
  induction l as [|y l IH]; [cbn; lia|].
  cbn [map fold_right]. rewrite IH. lia.
Qed.

Lemma cross_rule_shift (dy : Z) (head shoulder : list Z) :
  cross_rule (map (fun y => y + dy)%Z head)
    (map (fun y => y + dy)%Z shoulder) =
  cross_rule head shoulder.
Proof.
  unfold cross_rule. rewrite !sum_map_add, !length_map.
  f_equal.
  set (hs := fold_right Z.add 0%Z head).
  set (ss := fold_right Z.add 0%Z shoulder).
  set (hn := Z.of_nat (length head)).
  set (sn := Z.of_nat (length shoulder)).
  destruct (Z.leb_spec ((ss + dy * sn) * hn) ((hs + dy * hn) * sn));
    destruct (Z.leb_spec (ss * hn) (hs * sn)); try reflexivity; lia.
Qed.

Lemma cross_rule_stretch (c : Z) (head shoulder : list Z) :
  (0 < c)%Z ->
  cross_rule (map (fun y => y * c)%Z head)
    (map (fun y => y * c)%Z shoulder) =
  cross_rule head shoulder.
Proof.
  intro Hc. unfold cross_rule. rewrite !sum_map_mul, !length_map.
  f_equal.
  set (hs := fold_right Z.add 0%Z head).
  set (ss := fold_right Z.add 0%Z shoulder).
  set (hn := Z.of_nat (length head)).
  set (sn := Z.of_nat (length shoulder)).
  replace (c * ss * hn)%Z with (c * (ss * hn))%Z by lia.
  replace (c * hs * sn)%Z with (c * (hs * sn))%Z by lia.
  destruct (Z.leb_spec (c * (ss * hn)) (c * (hs * sn))) as [H|H];
    destruct (Z.leb_spec (ss * hn) (hs * sn)) as [H'|H'];
    try reflexivity; exfalso.
  - apply Z.mul_le_mono_pos_l in H; [lia|exact Hc].
  - apply (Z.mul_le_mono_pos_l _ _ c Hc) in H'. lia.
Qed.

(** X2.  With 17 keypoints whose collected y-coordinates are at most
    2^40 in magnitude, the verdict of the classifier with its roundings
    is the division-free rule: both groups have a keypoint above the
    float32 threshold and
    sum(shoulder ys) * len(head ys) <= sum(head ys) * len(shoulder ys). *)
Theorem bounded_check_drowsiness_is_division_free
    (keypoints : list keypoint) (thr : Q) :
  length keypoints = 17%nat ->
  heights_within (2 ^ 40) keypoints ->
  let head := above_float32_ys keypoints 0 5 thr in
  let shoulder := above_float32_ys keypoints 5 2 thr in
  Fp.check_drowsiness keypoints thr =
  Ok (match head, shoulder with
      | [], _ | _, [] => false
      | _, _ =>
          (fold_right Z.add 0 shoulder * Z.of_nat (length head) <=?
           fold_right Z.add 0 head * Z.of_nat (length shoulder))%Z
      end).
Proof.
  intros Hlen Hwithin head shoulder. subst head shoulder.
  rewrite fp_check_drowsiness_bounded;
    try assumption; try (apply above_float32_ys_within; exact Hwithin).
  unfold cross_rule.
  destruct (above_float32_ys keypoints 0 5 thr) as [|h hs]; [reflexivity|].
  destruct (above_float32_ys keypoints 5 2 thr) as [|s ss]; reflexivity.
Qed.

Lemma bounded_check_drowsiness_is_division_free_witness :
  Fp.check_drowsiness person_at_threshold (1 # 8) =
  Ok (match above_float32_ys person_at_threshold 0 5 (1 # 8),
            above_float32_ys person_at_threshold 5 2 (1 # 8) with
      | [], _ | _, [] => false
      | _, _ =>
          (fold_right Z.add 0
             (above_float32_ys person_at_threshold 5 2 (1 # 8)) *
           Z.of_nat (length (above_float32_ys person_at_threshold 0 5 (1 # 8)))
           <=?
           fold_right Z.add 0
             (above_float32_ys person_at_threshold 0 5 (1 # 8)) *
           Z.of_nat (length (above_float32_ys person_at_threshold 5 2 (1 # 8))))%Z
      end).
Proof.
  apply (@bounded_check_drowsiness_is_division_free
           person_at_threshold (1 # 8)).
  - reflexivity.
  - unfold heights_within, person_at_threshold.
    repeat constructor; vm_compute; discriminate.
Defined.

(** X3.  Moving the whole person up or down does not change the
    verdict, as long as the y-coordinates stay within 2^40 in magnitude
    before and after: for 17 keypoints, adding the same [dy] to every
    y-coordinate leaves the result of the classifier with its roundings
    as it is. *)
Theorem bounded_vertical_shift_keeps_verdict
    (dy : Z) (keypoints : list keypoint) (thr : Q) :
  length keypoints = 17%nat ->
  heights_within (2 ^ 40) keypoints ->
  heights_within (2 ^ 40) (map (shift_y dy) keypoints) ->
  Fp.check_drowsiness (map (shift_y dy) keypoints) thr =
  Fp.check_drowsiness keypoints thr.
Proof.
  intros Hlen Hbefore Hafter.
  rewrite !fp_check_drowsiness_bounded;
    try (rewrite ?length_map; assumption);
    try (apply above_float32_ys_within; assumption).
  rewrite !(above_float32_ys_map (shift_y dy) (fun y => y + dy)%Z);
    try (intros [[x y] conf]; reflexivity).
  now rewrite cross_rule_shift.
Qed.

Lemma bounded_vertical_shift_keeps_verdict_witness :
  Fp.check_drowsiness (map (shift_y 1000) person_at_threshold) (1 # 8) =
  Fp.check_drowsiness person_at_threshold (1 # 8).
Proof.
  apply (@bounded_vertical_shift_keeps_verdict 1000 person_at_threshold (1 # 8)).
  - reflexivity.
  - unfold heights_within, person_at_threshold.
    repeat constructor; vm_compute; discriminate.
  - unfold heights_within, person_at_threshold.
    repeat constructor; vm_compute; discriminate.
Defined.

(** X4.  Enlarging the person does not change the verdict, as long as
    the y-coordinates stay within 2^40 in magnitude before and after:
    for 17 keypoints, multiplying every y-coordinate by the same
    positive integer leaves the result of the classifier with its
    roundings as it is. *)
Theorem bounded_vertical_stretch_keeps_verdict
    (c : Z) (keypoints : list keypoint) (thr : Q) :
  (0 < c)%Z ->
  length keypoints = 17%nat ->
  heights_within (2 ^ 40) keypoints ->
  heights_within (2 ^ 40) (map (stretch_y c) keypoints) ->
  Fp.check_drowsiness (map (stretch_y c) keypoints) thr =
  Fp.check_drowsiness keypoints thr.
Proof.
  intros Hc Hlen Hbefore Hafter.
  rewrite !fp_check_drowsiness_bounded;
    try (rewrite ?length_map; assumption);
    try (apply above_float32_ys_within; assumption).
  rewrite !(above_float32_ys_map (stretch_y c) (fun y => y * c)%Z);
    try (intros [[x y] conf]; reflexivity).
  now rewrite cross_rule_stretch.
Qed.

Lemma bounded_vertical_stretch_keeps_verdict_witness :
  Fp.check_drowsiness (map (stretch_y 3) person_at_threshold) (1 # 8) =
  Fp.check_drowsiness person_at_threshold (1 # 8).
Proof.
  apply (@bounded_vertical_stretch_keeps_verdict 3 person_at_threshold (1 # 8)).
  - lia.
  - reflexivity.
  - unfold heights_within, person_at_threshold.
    repeat constructor; vm_compute; discriminate.
  - unfold heights_within, person_at_threshold.
    repeat constructor; vm_compute; discriminate.
Defined.
